(** * Wordflow: the word engine ([WordEngine])

    A shallow embedding of [services/wordEngine.ts] and the properties of
    its dictionary loader, anagram index and level generator.

    Conventions of the model.
    - A JavaScript string is a [string]: a sequence of code units, here the
      8-bit ones.  [split_chars] is [s.split('')], [join_chars] is
      [a.join('')].
    - A JavaScript [Map] keeps its entries in insertion order and the level
      generator iterates over it, so the cluster index is an association
      list in insertion order.  The [counts] object of [isSubset] is only
      read and written by key: it is a [gmap].
    - [Array.prototype.sort] is stable; it is modelled by a stable insertion
      sort driven by the comparator's sign.
    - [Math.random()] is a stream of draws from [0,1); the two places where
      the source goes through floating point or the host's locale
      ([Math.pow] for the score, [localeCompare]) are section variables. *)

From Stdlib Require Import Ascii String QArith.
From stdpp Require Import base decidable option numbers list strings gmap sorting.

Local Open Scope string_scope.
Local Open Scope list_scope.
Local Open Scope nat_scope.

(** ** Strings and characters *)

(** [s.split('')]: the code units of [s]. *)
Definition split_chars (s : string) : list ascii := list_ascii_of_string s.

(** [a.join('')] on an array of one-character strings. *)
Definition join_chars (l : list ascii) : string := string_of_list_ascii l.

Definition code (c : ascii) : nat := nat_of_ascii c.

(** ** [Array.prototype.sort]

    [insert_by cmp x l] puts [x], which stood before every element of [l],
    in front of the first [y] with [cmp x y <= 0]: equal elements keep their
    order. *)
Section JsSort.
Context {A : Type} (cmp : A → A → Z).

Fixpoint insert_by (x : A) (l : list A) : list A :=
  match l with
  | [] => [x]
  | y :: l' => if (cmp x y <=? 0)%Z then x :: y :: l' else y :: insert_by x l'
  end.

Definition sort_by (l : list A) : list A := foldr insert_by [] l.
End JsSort.

(** The default comparator of [sort()] on one-character strings: by code
    unit. *)
Definition char_cmp (a b : ascii) : Z := (Z.of_nat (code a) - Z.of_nat (code b))%Z.

(** [word.split('').sort().join('')]: the letter signature. *)
Definition signature (word : string) : string :=
  join_chars (sort_by char_cmp (split_chars word)).

(** ** [isSubset] *)

(** [counts[char] = (counts[char] || 0) + 1] *)
Definition count_up (counts : gmap ascii nat) (char : ascii) : gmap ascii nat :=
  <[char := default 0 (counts !! char) + 1]> counts.

(** The first loop of [isSubset]. *)
Definition tally (big : list ascii) : gmap ascii nat := foldl count_up ∅ big.

(** The second loop of [isSubset]: [false] at the first character whose
    count is undefined or zero, one unit taken otherwise. *)
Fixpoint consume (counts : gmap ascii nat) (small : list ascii) : bool :=
  match small with
  | [] => true
  | char :: rest =>
      match counts !! char with
      | None | Some 0 => false
      | Some (S n) => consume (<[char := n]> counts) rest
      end
  end.

Definition isSubset (smallSorted bigSorted : string) : bool :=
  consume (tally (split_chars bigSorted)) (split_chars smallSorted).

(** The number of occurrences of a character in a string. *)
Definition occ (c : ascii) (s : string) : nat :=
  count_occ ascii_dec (split_chars s) c.

(** ** The static word tables *)

(** [PRIORITY_WORDS]: the curated supplement. *)
Definition PRIORITY_WORDS : list string :=
  [ "nigh"; "fain"; "yore"; "lore"; "bard"; "sage"; "vale"; "moor"; "vial";
    "helm"; "rune"; "mead"; "thou"; "thee"; "quoth"; "wrought"; "blithe";
    "stark"; "grim"; "vane"; "reed" ].

(** The words of [BLACKLIST], in the order of the source. *)
Definition BLACKLIST_WORDS : list string :=
  [ "fran"; "brad"; "greg"; "ebay"; "sony"; "dell"; "nike"; "levi"; "visa"; "ford";
    "fiat"; "asda"; "audi"; "hugo"; "marc"; "jean"; "paul"; "ivan"; "karl"; "erik";
    "http"; "html"; "www"; "com"; "org"; "blog"; "site"; "user"; "java"; "linux";
    "unix"; "xml"; "json"; "wifi"; "apps"; "tech"; "data"; "file"; "link"; "code";
    "ipad"; "ipod"; "xbox"; "psn"; "bios"; "ping"; "pong"; "null"; "void";
    "july"; "june"; "sept"; "octo"; "nov"; "dec"; "mon"; "tue"; "wed"; "thu"; "fri"; "sat"; "sun";
    "vhs"; "dvd"; "usb"; "cpu"; "ram"; "pdf"; "mp3"; "url"; "api"; "sku"; "vat"; "gmt"; "pst";
    "abc"; "xyz"; "qrs"; "tuv"; "pqr"; "mno" ].

(** [BLACKLIST = new Set([...])]. *)
Definition BLACKLIST : gset string := list_to_set BLACKLIST_WORDS.

(** The literal [fallback] of the [catch] branch of [init]. *)
Definition fallback : list string :=
  [ "rust"; "trust"; "star"; "rats"; "arts"; "stair"; "trail"; "train";
    "react"; "trace"; "cater"; "crate"; "rate"; "tear"; "great"; "gear";
    "read"; "dear"; "dare"; "care"; "race"; "rice"; "word"; "flow"; "wolf";
    "blue"; "glow"; "slow"; "fast"; "last"; "past"; "lake"; "peak"; "beam";
    "team"; "meat"; "tame"; "mate"; "late"; "tale"; "nigh"; "lore"; "bard";
    "sage"; "vale"; "moor" ].

(** ** The loader's normalisation and filter *)

(** [text.split('\n')]: always at least one piece. *)
Fixpoint split_lines (text : string) : list string :=
  match text with
  | EmptyString => [EmptyString]
  | String c rest =>
      if decide (c = "010"%char) then EmptyString :: split_lines rest
      else match split_lines rest with
           | [] => [String c EmptyString]
           | line :: lines => String c line :: lines
           end
  end.

(** White space for [trim()] among the 8-bit code units: tab, line feed,
    vertical tab, form feed, carriage return, space, no-break space. *)
Definition is_space (c : ascii) : bool :=
  let n := code c in
  ((9 <=? n) && (n <=? 13)) || (n =? 32) || (n =? 160).

Fixpoint drop_spaces (l : list ascii) : list ascii :=
  match l with
  | [] => []
  | c :: l' => if is_space c then drop_spaces l' else l
  end.

(** [w.trim()] *)
Definition trim (w : string) : string :=
  join_chars (rev (drop_spaces (rev (drop_spaces (split_chars w))))).

Definition is_upper (c : ascii) : bool := (65 <=? code c) && (code c <=? 90).
Definition is_lower (c : ascii) : bool := (97 <=? code c) && (code c <=? 122).

Definition lower_char (c : ascii) : ascii :=
  if is_upper c then ascii_of_nat (code c + 32) else c.
Definition upper_char (c : ascii) : ascii :=
  if is_lower c then ascii_of_nat (code c - 32) else c.

(** [w.toLowerCase()] and [w.toUpperCase()].  The ASCII letters are
    re-cased; a code unit from 128 on is left as it is (a line that holds
    one is rejected by [isAlpha] whichever way it is cased, and a word of
    the dictionary holds none). *)
Definition toLowerCase (w : string) : string :=
  join_chars (map lower_char (split_chars w)).
Definition toUpperCase (w : string) : string :=
  join_chars (map upper_char (split_chars w)).

Definition is_vowel (c : ascii) : bool :=
  bool_decide (c ∈ split_chars "aeiouy").

(** The four tests of the filter callback. *)
Definition isCorrectLength (w : string) : bool :=
  (4 <=? String.length w) && (String.length w <=? 7).
(** [/^[a-z]+$/.test(w)] *)
Definition isAlpha (w : string) : bool :=
  match split_chars w with
  | [] => false
  | cs => forallb is_lower cs
  end.
(** [/[aeiouy]/.test(w)] *)
Definition hasVowel (w : string) : bool := existsb is_vowel (split_chars w).
Definition isBlacklisted (w : string) : bool := bool_decide (w ∈ BLACKLIST).

Definition admissible (w : string) : bool :=
  isCorrectLength w && isAlpha w && hasVowel w && negb (isBlacklisted w).

(** [text.split('\n').map(w => w.trim().toLowerCase()).filter(...)] *)
Definition fetchedWords (text : string) : list string :=
  filter (λ w, admissible w = true)
         (map (λ w, toLowerCase (trim w)) (split_lines text)).

(** [[...new Set(words)]]: a [Set] keeps the first occurrence of each value,
    in insertion order. *)
Definition set_add (seen : list string) (w : string) : list string :=
  if bool_decide (w ∈ seen) then seen else seen ++ [w].
Definition unique (words : list string) : list string := foldl set_add [] words.

(** ** The cluster index: a [Map<string, string[]>] in insertion order *)

Definition Clusters : Type := list (string * list string).

Definition map_has (k : string) (m : Clusters) : bool := bool_decide (k ∈ m.*1).

(** [m.set(k, v)]: the value is replaced in place when the key is there, the
    entry is appended otherwise. *)
Fixpoint map_set (k : string) (v : list string) (m : Clusters) : Clusters :=
  match m with
  | [] => [(k, v)]
  | (k', v') :: m' =>
      if decide (k' = k) then (k, v) :: m' else (k', v') :: map_set k v m'
  end.

(** [m.get(k)!.push(w)]: the array stored under [k] grows by [w]. *)
Fixpoint map_push (k : string) (w : string) (m : Clusters) : Clusters :=
  match m with
  | [] => []
  | (k', ws) :: m' =>
      if decide (k' = k) then (k', ws ++ [w]) :: m' else (k', ws) :: map_push k w m'
  end.

(** [if (!m.has(k)) m.set(k, [])] *)
Definition with_key (k : string) (m : Clusters) : Clusters :=
  if map_has k m then m else map_set k [] m.

(** The body of the [forEach] that fills the index. *)
Definition add_word (m : Clusters) (word : string) : Clusters :=
  let sorted := signature word in
  map_push sorted word (with_key sorted m).

(** ** The engine *)

Record WordEngine := {
  clusters : Clusters;
  dictionary : list string;
  dictionarySet : gset string
}.

(** [new WordEngine()] *)
Definition new_engine : WordEngine :=
  {| clusters := []; dictionary := []; dictionarySet := ∅ |}.

(** What the [try] block of [init] gets from the network: [fetch] rejects,
    the response is not [ok] (the source then throws), reading the body
    rejects, or the text arrives. *)
Inductive FetchOutcome :=
| FetchRejected
| FetchNotOk
| FetchBodyRejected
| FetchText (text : string).

(** [init()].  Every failure of the [try] block happens before its first
    assignment, so the [catch] block starts from the engine as it was; the
    [catch] block does not clear the index. *)
Definition init (r : FetchOutcome) (e : WordEngine) : WordEngine :=
  match r with
  | FetchText text =>
      let combined := unique (fetchedWords text ++ PRIORITY_WORDS) in
      {| dictionary := combined;
         dictionarySet := list_to_set combined;
         clusters := foldl add_word [] combined |}
  | _ =>
      {| dictionary := fallback;
         dictionarySet := list_to_set fallback;
         clusters := foldl add_word (clusters e) fallback |}
  end.

(** The outcomes that send [init] to its [catch] block. *)
Definition failed (r : FetchOutcome) : bool :=
  match r with FetchText _ => false | _ => true end.

(** [isValidWord(word)] *)
Definition isValidWord (e : WordEngine) (word : string) : bool :=
  bool_decide (toLowerCase word ∈ dictionarySet e).

(** ** Randomness *)

(** One value of [Math.random()]: the number [dnum / (dnum + 1 + dgap)] of
    the interval [0,1). *)
Record Draw := { dnum : nat; dgap : nat }.

(** [Math.floor(u * n)] *)
Definition floor_mul (u : Draw) (n : nat) : nat :=
  (dnum u * n) / (dnum u + S (dgap u)).

(** The successive values of [Math.random()] during one call. *)
Definition Rng : Type := nat → Draw.
Definition skip (k : nat) (rng : Rng) : Rng := λ i, rng (k + i).

(** ** [generateLevel] *)

Record LevelData := {
  rootLetters : string;
  displayLetters : list ascii;
  validWords : list string;
  foundWords : gset string
}.

(** [this.dictionary.filter(w => w.length === targetLength)].  The target is
    a JavaScript number: an integer here, and one that is negative matches
    no word, as a fractional one would. *)
Definition rootWords_of (e : WordEngine) (targetLength : Z) : list string :=
  filter (λ w, Z.of_nat (String.length w) = targetLength) (dictionary e).

(** [x || d] on a string that may be undefined: the empty string is falsy
    too. *)
Definition or_default (x : option string) (d : string) : string :=
  match x with
  | None | Some EmptyString => d
  | Some s => s
  end.

(** Lines 118 to 125: the choice of the root. *)
Definition chooseRoot (e : WordEngine) (rng : Rng) (targetLength : Z) : string :=
  let rootWords := rootWords_of e targetLength in
  let rootWords :=
    if decide (length rootWords = 0) then rootWords_of e 5 else rootWords in
  or_default (rootWords !! floor_mul (rng 0) (length rootWords)) "water".

(** The scan of the index: [allValid]. *)
Definition candidatePool (m : Clusters) (rootSorted : string) : list string :=
  foldl (λ allValid '(sortedLetters, words),
           if isSubset sortedLetters rootSorted then allValid ++ words
           else allValid)
        [] m.

Definition maxWords : nat := 12.

(** [(a, b) => b.score - a.score], by its sign. *)
Definition score_cmp (a b : string * Q) : Z := Z.sgn (Qnum (b.2 - a.2)).

(** [[displayLetters[i], displayLetters[j]] = [displayLetters[j], displayLetters[i]]];
    both indices are inside the array wherever the loop calls it. *)
Definition swap (i j : nat) (a : list ascii) : list ascii :=
  match a !! i, a !! j with
  | Some x, Some y => <[j := x]> (<[i := y]> a)
  | _, _ => a
  end.

(** The loop [for (let i = ...; i > 0; i--)], entered with index [i]. *)
Fixpoint shuffle_loop (i : nat) (rng : Rng) (a : list ascii) : list ascii :=
  match i with
  | 0 => a
  | S i' =>
      let j := floor_mul (rng 0) (i + 1) in
      shuffle_loop i' (skip 1 rng) (swap i j a)
  end.

Definition shuffle (rng : Rng) (a : list ascii) : list ascii :=
  shuffle_loop (length a - 1) rng a.

Section Generator.
(** [Math.pow(u, 1 / len)], the double it returns taken as a rational. *)
Variable pow_score : Draw → nat → Q.
(** [a.localeCompare(b)], which depends on the host's locale. *)
Variable localeCompare : string → string → Z.

(** [(a, b) => a.length - b.length || a.localeCompare(b)] *)
Definition word_cmp (a b : string) : Z :=
  let d := (Z.of_nat (String.length a) - Z.of_nat (String.length b))%Z in
  if decide (d = 0%Z) then localeCompare a b else d.

(** Lines 135 to 147: the whole pool, or the twelve best scores. *)
Definition selectWords (rng : Rng) (allValid : list string) : list string :=
  if decide (length allValid ≤ maxWords) then allValid
  else
    let scoredWords :=
      imap (λ i word, (word, pow_score (rng i) (String.length word))) allValid in
    (take maxWords (sort_by score_cmp scoredWords)).*1.

Definition generateLevel (e : WordEngine) (rng : Rng) (targetLength : Z) : LevelData :=
  let randomRoot := chooseRoot e rng targetLength in
  let rootSorted := signature randomRoot in
  let allValid := candidatePool (clusters e) rootSorted in
  let rng := skip 1 rng in
  let selectedWords := selectWords rng allValid in
  let rng :=
    if decide (length allValid ≤ maxWords) then rng
    else skip (length allValid) rng in
  {| rootLetters := rootSorted;
     displayLetters := shuffle rng (split_chars (toUpperCase randomRoot));
     validWords := sort_by word_cmp selectedWords;
     foundWords := ∅ |}.
End Generator.

(** The pool of candidates of a call. *)
Definition level_pool (e : WordEngine) (rng : Rng) (targetLength : Z) : list string :=
  candidatePool (clusters e) (signature (chooseRoot e rng targetLength)).

(** ** The invariant of the index *)

(** Every word of a cluster has the cluster's key for signature. *)
Definition keyed_by_signature (m : Clusters) : Prop :=
  ∀ k ws w, (k, ws) ∈ m → w ∈ ws → k = signature w.

(** The index partitions [dict]: the cluster lists together hold the words
    of [dict] and nothing else, no word twice, there is one cluster for a
    key, and a word sits under its own signature. *)
Definition index_partitions (m : Clusters) (dict : list string) : Prop :=
  concat m.*2 ≡ₚ dict
  ∧ NoDup (concat m.*2)
  ∧ NoDup m.*1
  ∧ keyed_by_signature m.

(** A word is filed: it is in the cluster keyed by its signature. *)
Definition filed (m : Clusters) (w : string) : Prop :=
  ∃ ws, (signature w, ws) ∈ m ∧ w ∈ ws.

(** ** Concrete instances, for evaluation *)

(** A comparison by code units, as [localeCompare] orders words of a to z. *)
Fixpoint code_unit_compare (a b : string) : Z :=
  match a, b with
  | EmptyString, EmptyString => 0
  | EmptyString, String _ _ => -1
  | String _ _, EmptyString => 1
  | String x a', String y b' =>
      if decide (x = y) then code_unit_compare a' b' else char_cmp x y
  end.

(** A score that ignores the length. *)
Definition flat_score (u : Draw) (len : nat) : Q :=
  Z.of_nat (dnum u) # Pos.of_succ_nat (dnum u + dgap u).

(** Every draw is zero. *)
Definition zero_rng : Rng := λ _, {| dnum := 0; dgap := 0 |}.

(** Draw [i] is [(i mod 7) / 7]. *)
Definition cycle_rng : Rng := λ i, {| dnum := i mod 7; dgap := 6 - i mod 7 |}.

(** A constrained dictionary: one word of six letters, none of seven. *)
Definition small_words : list string := ["strain"; "train"; "rain"; "rant"].
Definition small_engine : WordEngine :=
  {| dictionary := small_words;
     dictionarySet := list_to_set small_words;
     clusters := foldl add_word [] small_words |}.

(** [lines.join('\n')], to write a raw text down line by line. *)
Definition join_lines (lines : list string) : string :=
  String.concat (String "010"%char EmptyString) lines.

(** A raw text with eighteen words that the letters of "strain" spell. *)
Definition strain_text : string :=
  join_lines [ "strain"; "trains"; "rain"; "stair"; "saint"; "train"; "rant";
               "stain"; "satin"; "rains"; "tarns"; "ants"; "tins"; "star";
               "rats"; "arts"; "tars"; "airs" ].

(** The engine after a failed fetch. *)
Definition fallback_engine : WordEngine := init FetchNotOk new_engine.

(** ** Further vocabulary of the engine *)

(** [m.get(k)]: the value of the entry of key [k], if there is one. *)
Fixpoint map_get (k : string) (m : Clusters) : option (list string) :=
  match m with
  | [] => None
  | (k', v) :: m' => if decide (k' = k) then Some v else map_get k m'
  end.

(** Two words are anagrams: the same characters, as often. *)
Definition anagrams (a b : string) : Prop := split_chars a ≡ₚ split_chars b.

(** The order of the default [sort()] on characters. *)
Definition char_le (a b : ascii) : Prop := code a ≤ code b.

(** The order a comparator stands for: [a] may come before [b]. *)
Definition before {A} (cmp : A → A → Z) (a b : A) : Prop := (cmp a b ≤ 0)%Z.

(** What [sort] needs of a comparator to put an array in order. *)
Definition consistent {A} (cmp : A → A → Z) : Prop :=
  (∀ a b, (0 < cmp a b)%Z → (cmp b a ≤ 0)%Z)
  ∧ (∀ a b c, (cmp a b ≤ 0)%Z → (cmp b c ≤ 0)%Z → (cmp a c ≤ 0)%Z).

(** ** The game shell ([App.tsx])

    The component's state is a record and each handler a function from
    state to state; the engine is the one [init] left.  [currentGuess]
    belongs to the letter wheel and no handler below writes it.  A timer is
    counted when it is set and fires as an event of its own. *)

Inductive GameState := LOADING | PLAYING | LEVEL_COMPLETE.

Global Instance GameState_eq_dec : EqDecision GameState.
Proof. solve_decision. Defined.

(** [isPossibleWithLetters]: the second loop stops on [!counts[char]], which
    holds of an undefined count and of zero, and decrements otherwise. *)
Fixpoint spend (counts : gmap ascii nat) (word : list ascii) : bool :=
  match word with
  | [] => true
  | char :: rest =>
      match counts !! char with
      | None => false
      | Some n => if decide (n = 0) then false
                  else spend (<[char := n - 1]> counts) rest
      end
  end.

Definition isPossibleWithLetters (word rootLetters : string) : bool :=
  spend (foldl count_up ∅ (split_chars rootLetters)) (split_chars word).

Record AppState := {
  gameState : GameState;
  level : option LevelData;
  message : string;
  score : Z;
  levelNumber : Z;
  isSkipped : bool;
  revealedIndices : gmap string (list nat);
  messageTimers : nat;
  completeTimers : nat
}.

(** The state of the first render. *)
Definition initial_state : AppState :=
  {| gameState := LOADING; level := None; message := EmptyString; score := 0;
     levelNumber := 1; isSkipped := false; revealedIndices := ∅;
     messageTimers := 0; completeTimers := 0 |}.

Definition setGameState (g : GameState) (st : AppState) : AppState :=
  {| gameState := g; level := level st; message := message st; score := score st;
     levelNumber := levelNumber st; isSkipped := isSkipped st;
     revealedIndices := revealedIndices st;
     messageTimers := messageTimers st; completeTimers := completeTimers st |}.

Definition setLevel (l : option LevelData) (st : AppState) : AppState :=
  {| gameState := gameState st; level := l; message := message st; score := score st;
     levelNumber := levelNumber st; isSkipped := isSkipped st;
     revealedIndices := revealedIndices st;
     messageTimers := messageTimers st; completeTimers := completeTimers st |}.

Definition setMessage (m : string) (st : AppState) : AppState :=
  {| gameState := gameState st; level := level st; message := m; score := score st;
     levelNumber := levelNumber st; isSkipped := isSkipped st;
     revealedIndices := revealedIndices st;
     messageTimers := messageTimers st; completeTimers := completeTimers st |}.

Definition setScore (n : Z) (st : AppState) : AppState :=
  {| gameState := gameState st; level := level st; message := message st; score := n;
     levelNumber := levelNumber st; isSkipped := isSkipped st;
     revealedIndices := revealedIndices st;
     messageTimers := messageTimers st; completeTimers := completeTimers st |}.

Definition setLevelNumber (n : Z) (st : AppState) : AppState :=
  {| gameState := gameState st; level := level st; message := message st; score := score st;
     levelNumber := n; isSkipped := isSkipped st;
     revealedIndices := revealedIndices st;
     messageTimers := messageTimers st; completeTimers := completeTimers st |}.

Definition setIsSkipped (b : bool) (st : AppState) : AppState :=
  {| gameState := gameState st; level := level st; message := message st; score := score st;
     levelNumber := levelNumber st; isSkipped := b;
     revealedIndices := revealedIndices st;
     messageTimers := messageTimers st; completeTimers := completeTimers st |}.

Definition setRevealedIndices (r : gmap string (list nat)) (st : AppState) : AppState :=
  {| gameState := gameState st; level := level st; message := message st; score := score st;
     levelNumber := levelNumber st; isSkipped := isSkipped st;
     revealedIndices := r;
     messageTimers := messageTimers st; completeTimers := completeTimers st |}.

(** [setTimeout(() => setMessage(empty), 2000)] and
    [setTimeout(() => setGameState(LEVEL_COMPLETE), 1500)]: one more timer
    is waiting. *)
Definition armMessageTimer (st : AppState) : AppState :=
  {| gameState := gameState st; level := level st; message := message st; score := score st;
     levelNumber := levelNumber st; isSkipped := isSkipped st;
     revealedIndices := revealedIndices st;
     messageTimers := S (messageTimers st); completeTimers := completeTimers st |}.

Definition armCompleteTimer (st : AppState) : AppState :=
  {| gameState := gameState st; level := level st; message := message st; score := score st;
     levelNumber := levelNumber st; isSkipped := isSkipped st;
     revealedIndices := revealedIndices st;
     messageTimers := messageTimers st; completeTimers := S (completeTimers st) |}.

(** The two timers firing. *)
Definition messageTimeout (st : AppState) : AppState :=
  match messageTimers st with
  | 0 => st
  | S n =>
      {| gameState := gameState st; level := level st; message := EmptyString;
         score := score st;
         levelNumber := levelNumber st; isSkipped := isSkipped st;
         revealedIndices := revealedIndices st;
         messageTimers := n; completeTimers := completeTimers st |}
  end.

Definition completeTimeout (st : AppState) : AppState :=
  match completeTimers st with
  | 0 => st
  | S n =>
      {| gameState := LEVEL_COMPLETE; level := level st; message := message st;
         score := score st;
         levelNumber := levelNumber st; isSkipped := isSkipped st;
         revealedIndices := revealedIndices st;
         messageTimers := messageTimers st; completeTimers := n |}
  end.

Definition showTemporaryMessage (msg : string) (st : AppState) : AppState :=
  armMessageTimer (setMessage msg st).

(** [{ ...level, foundWords: found }] *)
Definition with_foundWords (lvl : LevelData) (found : gset string) : LevelData :=
  {| rootLetters := rootLetters lvl; displayLetters := displayLetters lvl;
     validWords := validWords lvl; foundWords := found |}.

(** [handleWordComplete(word)] *)
Definition handleWordComplete (e : WordEngine) (word : string) (st : AppState) : AppState :=
  match level st with
  | None => st
  | Some lvl =>
      if String.length word <? 4 then
        if 0 <? String.length word then showTemporaryMessage "Too short!" st else st
      else if bool_decide (word ∈ foundWords lvl) then
        showTemporaryMessage "Already found!" st
      else if bool_decide (word ∈ validWords lvl) then
        let updatedFound := foundWords lvl ∪ {[word]} in
        let st1 := setLevel (Some (with_foundWords lvl updatedFound)) st in
        let st2 := setScore (score st1 + Z.of_nat (String.length word) * 10) st1 in
        let st3 := showTemporaryMessage "Great!" st2 in
        if decide (size updatedFound = length (validWords lvl))
        then setGameState LEVEL_COMPLETE st3 else st3
      else
        let isEnglishWord := isValidWord e word in
        let possibleWithLetters := isPossibleWithLetters word (rootLetters lvl) in
        if isEnglishWord && possibleWithLetters then
          showTemporaryMessage "Valid, but not in this puzzle!" st
        else if isEnglishWord && negb possibleWithLetters then
          showTemporaryMessage "Wrong letters!" st
        else showTemporaryMessage "Not a word!" st
  end.

(** [revealedIndices[word] || []] *)
Definition revealed_of (st : AppState) (word : string) : list nat :=
  default [] (revealedIndices st !! word).

(** [handleHelp()]: the first draw picks the word, the second the position. *)
Definition handleHelp (rng : Rng) (st : AppState) : AppState :=
  match level st with
  | None => st
  | Some lvl =>
      if decide (gameState st ≠ PLAYING) then st else
      let unfoundWords := filter (λ w, w ∉ foundWords lvl) (validWords lvl) in
      if decide (length unfoundWords = 0) then st else
      let availableWords :=
        filter (λ word, length (revealed_of st word) < String.length word) unfoundWords in
      if decide (length availableWords = 0) then st else
      match availableWords !! floor_mul (rng 0) (length availableWords) with
      | None => st
      | Some targetWord =>
          let revealed := revealed_of st targetWord in
          let hiddenIndices :=
            filter (λ i, i ∉ revealed) (seq 0 (String.length targetWord)) in
          if decide (0 < length hiddenIndices) then
            match hiddenIndices !! floor_mul (rng 1) (length hiddenIndices) with
            | None => st
            | Some newIndex =>
                let st1 := setRevealedIndices
                             (<[targetWord := revealed ++ [newIndex]]> (revealedIndices st)) st in
                setScore (Z.max 0 (score st1 - 20)) st1
            end
          else st
      end
  end.

(** [handleGiveUp()] *)
Definition handleGiveUp (st : AppState) : AppState :=
  match level st with
  | None => st
  | Some lvl =>
      if decide (gameState st ≠ PLAYING) then st else
      let st1 := setIsSkipped true st in
      let allFound := list_to_set (validWords lvl) in
      let st2 := setLevel (Some (with_foundWords lvl allFound)) st1 in
      armCompleteTimer (showTemporaryMessage "Words revealed!" st2)
  end.

(** [Math.random() > 0.6].  No double lies between the double [0.6] and
    three fifths, so on the doubles the test is [u > 3/5]. *)
Definition above_six_tenths (u : Draw) : bool :=
  3 * (dnum u + S (dgap u)) <? 5 * dnum u.

(** The target length of [nextLevel]:
    [Math.min(7, Math.max(5, (level?.rootLetters.length || 5) + (... ? 1 : 0)))]. *)
Definition nextLen (rng : Rng) (st : AppState) : Z :=
  let len := match level st with
             | Some lvl => String.length (rootLetters lvl)
             | None => 0
             end in
  let len := if decide (len = 0) then 5 else len in
  Z.min 7 (Z.max 5 (Z.of_nat len + (if above_six_tenths (rng 0) then 1 else 0))).

Section Shell.
Variable pow_score : Draw → nat → Q.
Variable localeCompare : string → string → Z.
(** The engine, after [init]. *)
Variable wordEngine : WordEngine.

(** [loadNewLevel(length)] *)
Definition loadNewLevel (rng : Rng) (length : Z) (st : AppState) : AppState :=
  let nextLevelData := generateLevel pow_score localeCompare wordEngine rng length in
  setIsSkipped false
    (setMessage EmptyString
       (setGameState PLAYING
          (setRevealedIndices ∅ (setLevel (Some nextLevelData) st)))).

(** [nextLevel()]: the first draw decides the length, the rest go to
    [generateLevel]. *)
Definition nextLevel (rng : Rng) (st : AppState) : AppState :=
  let st1 := if isSkipped st then st else setLevelNumber (levelNumber st + 1) st in
  loadNewLevel (skip 1 rng) (nextLen rng st) st1.

(** What can happen to the component once the engine is loaded. *)
Inductive Event :=
| WordComplete (word : string)
| Help (rng : Rng)
| GiveUp
| NextLevel (rng : Rng)
| MessageTimeout
| CompleteTimeout.

Definition handle (ev : Event) (st : AppState) : AppState :=
  match ev with
  | WordComplete word => handleWordComplete wordEngine word st
  | Help rng => handleHelp rng st
  | GiveUp => handleGiveUp st
  | NextLevel rng => nextLevel rng st
  | MessageTimeout => messageTimeout st
  | CompleteTimeout => completeTimeout st
  end.

(** The states the component goes through: [initGame] loads a level of
    target length 6, then events follow. *)
Inductive reachable : AppState → Prop :=
| reachable_start (rng : Rng) : reachable (loadNewLevel rng 6 initial_state)
| reachable_step (ev : Event) (st : AppState) :
    reachable st → reachable (handle ev st).
End Shell.

(** What every state of the shell satisfies: the score is not negative, the
    found words are words of the level, and the revealed positions of a word
    are positions of that word, each listed once. *)
Definition shell_ok (st : AppState) : Prop :=
  (0 ≤ score st)%Z
  ∧ match level st with
    | None => revealedIndices st = ∅
    | Some lvl =>
        (∀ w, w ∈ foundWords lvl → w ∈ validWords lvl)
        ∧ ∀ w l, revealedIndices st !! w = Some l →
                 w ∈ validWords lvl ∧ NoDup l ∧ Forall (λ i, i < String.length w) l
    end.

(** An engine on which [init] ran twice, the fetch failing both times. *)
Definition twice_failed_engine : WordEngine :=
  init FetchNotOk (init FetchNotOk new_engine).

(** Draws whose first value is 4/9, which picks the fifth of nine roots;
    the others are those of [cycle_rng]. *)
Definition react_rng : Rng :=
  λ i, match i with
       | 0 => {| dnum := 4; dgap := 4 |}
       | S _ => cycle_rng i
       end.

(** * Properties *)

(** ** [isSubset] counts characters *)

Lemma tally_from (l : list ascii) (m : gmap ascii nat) (c : ascii) :
  default 0 (foldl count_up m l !! c) = default 0 (m !! c) + count_occ ascii_dec l c.
Proof.
  revert m; induction l as [|a l IH]; intros m; simpl.
  - lia.
  - rewrite IH. unfold count_up.
    destruct (ascii_dec a c) as [->|Hne].
    + rewrite lookup_insert_eq. simpl. lia.
    + rewrite lookup_insert_ne by done. lia.
Qed.

Lemma tally_count (l : list ascii) (c : ascii) :
  default 0 (tally l !! c) = count_occ ascii_dec l c.
Proof. unfold tally. rewrite tally_from, lookup_empty. reflexivity. Qed.

Lemma consume_spec (small : list ascii) (m : gmap ascii nat) :
  consume m small = true ↔
  ∀ c, count_occ ascii_dec small c ≤ default 0 (m !! c).
Proof.
  revert m; induction small as [|a small IH]; intros m; simpl.
  - split; [intros _ c; lia | done].
  - destruct (m !! a) as [[|n]|] eqn:Ha.
    + split; [done|]. intros H. specialize (H a). rewrite Ha in H.
      destruct (ascii_dec a a); [simpl in H; lia | done].
    + rewrite IH. split; intros H c; specialize (H c).
      * destruct (ascii_dec a c) as [->|Hne].
        -- rewrite lookup_insert_eq in H. rewrite Ha. simpl in *. lia.
        -- by rewrite lookup_insert_ne in H.
      * destruct (ascii_dec a c) as [->|Hne].
        -- rewrite lookup_insert_eq. rewrite Ha in H. simpl in *. lia.
        -- by rewrite lookup_insert_ne.
    + split; [done|]. intros H. specialize (H a). rewrite Ha in H.
      destruct (ascii_dec a a); [simpl in H; lia | done].
Qed.

Lemma isSubset_spec (small big : string) :
  isSubset small big = true ↔ ∀ c, occ c small ≤ occ c big.
Proof.
  unfold isSubset, occ. rewrite consume_spec.
  split; intros H c; specialize (H c); by rewrite tally_count in *.
Qed.

(** ** C1: the subset scan *)

(** C1, as stated, fails on "trains": the word has a single "s" and is an
    anagram of "strain", so its signature is the root's own signature and
    the scan accepts it. *)
Lemma trains_passes_against_strain :
  signature "trains" = signature "strain"
  ∧ isSubset (signature "trains") (signature "strain") = true.
Proof. split; vm_compute; reflexivity. Qed.

(** C1 (amended). The subset scan is a multiset-subset test: a candidate
    signature passes against a root signature exactly when each character
    occurs in the root signature at least as often as in the candidate.  For
    the root "strain", whose signature is "ainrst", the signatures of "rain",
    "rant", "stair", "train" and "saint" pass, and so does that of "trains",
    an anagram of the root. *)
Theorem isSubset_multiset_subset :
  (∀ small big : string,
      isSubset small big = true ↔ ∀ c, occ c small ≤ occ c big)
  ∧ signature "strain" = "ainrst"
  ∧ Forall (λ w, isSubset (signature w) (signature "strain") = true)
           ["rain"; "rant"; "stair"; "train"; "saint"; "trains"].
Proof.
  split; [exact isSubset_spec|].
  split; [reflexivity|].
  repeat constructor; vm_compute; reflexivity.
Qed.

(** ** The loader *)

Lemma set_add_elem (seen : list string) (w x : string) :
  x ∈ set_add seen w ↔ x ∈ seen ∨ x = w.
Proof.
  unfold set_add. case_bool_decide as Hw.
  - split; [by left|]. intros [?| ->]; done.
  - rewrite elem_of_app, list_elem_of_singleton. done.
Qed.

Lemma set_add_NoDup (seen : list string) (w : string) :
  NoDup seen → NoDup (set_add seen w).
Proof.
  intros Hnd. unfold set_add. case_bool_decide as Hw; [done|].
  apply NoDup_app. split_and!; [done | | apply NoDup_singleton].
  intros x Hx ->%list_elem_of_singleton. done.
Qed.

Lemma unique_from (words seen : list string) :
  (∀ x, x ∈ foldl set_add seen words ↔ x ∈ seen ∨ x ∈ words)
  ∧ (NoDup seen → NoDup (foldl set_add seen words)).
Proof.
  revert seen; induction words as [|w words IH]; intros seen; simpl.
  - split; [|done]. intros x. rewrite elem_of_nil. tauto.
  - destruct (IH (set_add seen w)) as [IHe IHn]. split.
    + intros x. rewrite IHe, set_add_elem, elem_of_cons. tauto.
    + intros Hnd. by apply IHn, set_add_NoDup.
Qed.

Lemma unique_elem (words : list string) (x : string) :
  x ∈ unique words ↔ x ∈ words.
Proof.
  unfold unique. destruct (unique_from words []) as [He _].
  rewrite He, elem_of_nil. tauto.
Qed.

Lemma unique_NoDup (words : list string) : NoDup (unique words).
Proof. apply unique_from, NoDup_nil_2. Qed.

Lemma fetchedWords_admissible (text w : string) :
  w ∈ fetchedWords text → admissible w = true.
Proof. unfold fetchedWords. rewrite list_elem_of_filter. tauto. Qed.

(** What the filter lets through, test by test. *)
Lemma admissible_spec (w : string) :
  admissible w = true →
  4 ≤ String.length w ≤ 7
  ∧ Forall (λ c, 97 ≤ code c ≤ 122) (split_chars w)
  ∧ Exists (λ c, c ∈ split_chars "aeiouy") (split_chars w)
  ∧ w ∉ BLACKLIST.
Proof.
  unfold admissible, isCorrectLength, isAlpha, hasVowel, isBlacklisted.
  rewrite !andb_true_iff, negb_true_iff, bool_decide_eq_false.
  rewrite !Nat.leb_le. intros [[[[Hlo Hhi] Ha] Hv] Hb].
  split_and!; [done | done | | | done].
  - assert (Hall : forallb is_lower (split_chars w) = true)
      by (destruct (split_chars w); [done | exact Ha]).
    apply Forall_forall. intros c Hc.
    rewrite forallb_forall in Hall.
    specialize (Hall c (proj1 (list_elem_of_In _ _) Hc)).
    unfold is_lower in Hall. rewrite andb_true_iff, !Nat.leb_le in Hall. done.
  - apply existsb_exists in Hv as (c & Hc & Hvc).
    apply Exists_exists. exists c. split; [by apply list_elem_of_In|].
    unfold is_vowel in Hvc. by apply bool_decide_eq_true in Hvc.
Qed.

Lemma PRIORITY_WORDS_admissible (w : string) :
  w ∈ PRIORITY_WORDS → admissible w = true.
Proof.
  intros Hw. assert (H : forallb admissible PRIORITY_WORDS = true)
    by (vm_compute; reflexivity).
  rewrite forallb_forall in H. by apply H, list_elem_of_In.
Qed.

Lemma fallback_admissible (w : string) :
  w ∈ fallback → admissible w = true.
Proof.
  intros Hw. assert (H : forallb admissible fallback = true)
    by (vm_compute; reflexivity).
  rewrite forallb_forall in H. by apply H, list_elem_of_In.
Qed.

Lemma init_failed_dictionary (r : FetchOutcome) (e : WordEngine) :
  failed r = true → dictionary (init r e) = fallback.
Proof. by destruct r. Qed.

Lemma init_dictionary_admissible (r : FetchOutcome) (e : WordEngine) (w : string) :
  w ∈ dictionary (init r e) → admissible w = true.
Proof.
  destruct r; simpl; try apply fallback_admissible.
  rewrite unique_elem, elem_of_app.
  intros [H|H]; [by eapply fetchedWords_admissible | by apply PRIORITY_WORDS_admissible].
Qed.

(** ** C4: the dictionary invariant *)

(** C4. Every word of the dictionary that [init] builds, from the fetched
    text as from the fallback list, has between 4 and 7 characters, all of
    them letters from a to z, holds one of a, e, i, o, u, y, and is not in
    the blacklist. *)
Theorem dictionary_words_admitted
    (r : FetchOutcome) (e : WordEngine) (w : string) :
  w ∈ dictionary (init r e) →
  4 ≤ String.length w ≤ 7
  ∧ Forall (λ c, 97 ≤ code c ≤ 122) (split_chars w)
  ∧ Exists (λ c, c ∈ split_chars "aeiouy") (split_chars w)
  ∧ w ∉ BLACKLIST.
Proof. intros Hw. by eapply admissible_spec, init_dictionary_admissible. Qed.

Lemma dictionary_words_admitted_witness :
  let r := FetchText (join_lines ["  Rain "; "DATA"; "the"; "xkcd"; "rhythm"]) in
  dictionary (init r new_engine) = "rain" :: "rhythm" :: PRIORITY_WORDS
  ∧ 4 ≤ String.length "rhythm" ≤ 7
  ∧ Forall (λ c, 97 ≤ code c ≤ 122) (split_chars "rhythm")
  ∧ Exists (λ c, c ∈ split_chars "aeiouy") (split_chars "rhythm")
  ∧ "rhythm" ∉ BLACKLIST.
Proof.
  intros r. split; [vm_compute; reflexivity|].
  apply (dictionary_words_admitted r new_engine "rhythm").
  apply (bool_decide_unpack _). vm_compute. exact I.
Defined.

(** ** C2: the fallback list *)

(** C2. When the raw source fails the dictionary should hold the whole
    supplement and words of every length from 4 to 7.  The [catch] block
    does not merge [PRIORITY_WORDS] as the [try] block does: after a failed
    fetch on a new engine the dictionary lacks words of the supplement
    ("fain" is the first), and it has no word of six or seven letters. *)
Lemma fallback_misses_supplement_and_long_words :
  let d := dictionary (init FetchNotOk new_engine) in
  ¬ (∀ w, w ∈ PRIORITY_WORDS → w ∈ d)
  ∧ "fain" ∈ PRIORITY_WORDS ∧ ("fain" ∉ d)
  ∧ ¬ (∃ w, w ∈ d ∧ String.length w = 6)
  ∧ ¬ (∃ w, w ∈ d ∧ String.length w = 7).
Proof.
  intros d.
  assert (Hin : "fain" ∈ PRIORITY_WORDS)
    by (apply (bool_decide_unpack _); vm_compute; exact I).
  assert (Hout : "fain" ∉ d)
    by (apply (bool_decide_unpack _); vm_compute; exact I).
  assert (Hlen : Forall (λ w, String.length w ≠ 6 ∧ String.length w ≠ 7) d)
    by (apply (bool_decide_unpack _); vm_compute; exact I).
  rewrite Forall_forall in Hlen.
  split_and!; [| done | done | |].
  - intros H. by apply Hout, H.
  - intros (w & Hw & Hl). by destruct (Hlen w Hw).
  - intros (w & Hw & Hl). by destruct (Hlen w Hw).
Qed.

(** What the [catch] block puts in place of the dictionary: the literal of
    46 words, every one of four or five letters, among them six words of
    [PRIORITY_WORDS] (nigh, lore, bard, sage, vale, moor).  The [try] block
    merges the whole of [PRIORITY_WORDS]. *)
Theorem fallback_dictionary (r : FetchOutcome) (e : WordEngine) :
  failed r = true →
  let d := dictionary (init r e) in
  d = fallback
  ∧ length d = 46 ∧ 40 ≤ length d
  ∧ Forall (λ w, 4 ≤ String.length w ≤ 5) d
  ∧ "rust" ∈ d ∧ "trust" ∈ d
  ∧ filter (λ w, w ∈ d) PRIORITY_WORDS = ["nigh"; "lore"; "bard"; "sage"; "vale"; "moor"]
  ∧ ∀ text e' w, w ∈ PRIORITY_WORDS → w ∈ dictionary (init (FetchText text) e').
Proof.
  intros Hr d. unfold d. rewrite (init_failed_dictionary r e Hr).
  split_and!.
  - reflexivity.
  - reflexivity.
  - vm_compute. lia.
  - apply (bool_decide_unpack _). vm_compute. exact I.
  - apply (bool_decide_unpack _). vm_compute. exact I.
  - apply (bool_decide_unpack _). vm_compute. exact I.
  - vm_compute. reflexivity.
  - intros text e' w Hw. simpl. rewrite unique_elem, elem_of_app. by right.
Qed.

Lemma fallback_dictionary_witness :
  failed FetchRejected = true
  ∧ (let d := dictionary (init FetchRejected new_engine) in
     d = fallback
     ∧ length d = 46 ∧ 40 ≤ length d
     ∧ Forall (λ w, 4 ≤ String.length w ≤ 5) d
     ∧ "rust" ∈ d ∧ "trust" ∈ d
     ∧ filter (λ w, w ∈ d) PRIORITY_WORDS = ["nigh"; "lore"; "bard"; "sage"; "vale"; "moor"]
     ∧ ∀ text e' w, w ∈ PRIORITY_WORDS → w ∈ dictionary (init (FetchText text) e')).
Proof.
  split; [reflexivity|].
  apply (fallback_dictionary FetchRejected new_engine). reflexivity.
Defined.

(** ** The cluster index *)

Lemma map_has_spec (k : string) (m : Clusters) : map_has k m = true ↔ k ∈ m.*1.
Proof. unfold map_has. apply bool_decide_eq_true. Qed.

Lemma map_set_fresh (k : string) (v : list string) (m : Clusters) :
  k ∉ m.*1 → map_set k v m = m ++ [(k, v)].
Proof.
  induction m as [|[k' v'] m IH]; csimpl; [done|].
  rewrite not_elem_of_cons. intros [Hne Hk].
  destruct (decide (k' = k)); [congruence|]. by rewrite IH.
Qed.

Lemma map_push_keys (k w : string) (m : Clusters) : (map_push k w m).*1 = m.*1.
Proof.
  induction m as [|[k' ws] m IH]; csimpl; [done|].
  destruct (decide (k' = k)); csimpl; [done | by rewrite IH].
Qed.

Lemma map_push_words (k w : string) (m : Clusters) :
  k ∈ m.*1 → concat (map_push k w m).*2 ≡ₚ w :: concat m.*2.
Proof.
  induction m as [|[k' ws] m IH]; csimpl.
  - by intros ?%elem_of_nil.
  - intros Hk. destruct (decide (k' = k)) as [->|Hne]; csimpl.
    + rewrite <- (assoc_L (++)). simpl. symmetry. apply Permutation_middle.
    + apply elem_of_cons in Hk as [Hk|Hk]; [congruence|].
      rewrite (IH Hk). symmetry. apply Permutation_middle.
Qed.

Lemma map_push_entry (k w k' : string) (ws' : list string) (m : Clusters) :
  (k', ws') ∈ map_push k w m →
  (k', ws') ∈ m ∨ (k' = k ∧ ∃ ws, (k, ws) ∈ m ∧ ws' = ws ++ [w]).
Proof.
  induction m as [|[k0 ws0] m IH]; simpl; [by left|].
  destruct (decide (k0 = k)) as [->|Hne].
  - intros [Heq|Hin]%elem_of_cons.
    + right. injection Heq as -> ->. split; [done|].
      exists ws0. split; [apply list_elem_of_here | done].
    + left. by apply list_elem_of_further.
  - intros [Heq|Hin]%elem_of_cons.
    + left. rewrite Heq. apply list_elem_of_here.
    + destruct (IH Hin) as [H|(-> & ws & Hws & ->)].
      * left. by apply list_elem_of_further.
      * right. split; [done|]. exists ws.
        split; [by apply list_elem_of_further | done].
Qed.

(** A word pushed under [k] lands in the cluster of key [k]. *)
Lemma map_push_lands (k w : string) (m : Clusters) :
  k ∈ m.*1 → ∃ ws, (k, ws) ∈ map_push k w m ∧ w ∈ ws.
Proof.
  induction m as [|[k' ws] m IH]; simpl.
  - by intros ?%elem_of_nil.
  - intros Hk. destruct (decide (k' = k)) as [->|Hne].
    + exists (ws ++ [w]). split; [apply list_elem_of_here|].
      apply elem_of_app. right. apply list_elem_of_here.
    + apply elem_of_cons in Hk as [Hk|Hk]; [congruence|].
      destruct (IH Hk) as (ws' & Hin & Hw).
      exists ws'. split; [by apply list_elem_of_further | done].
Qed.

(** What is in a cluster stays in a cluster of the same key. *)
Lemma map_push_keeps (k w k' x : string) (ws : list string) (m : Clusters) :
  (k', ws) ∈ m → x ∈ ws → ∃ ws', (k', ws') ∈ map_push k w m ∧ x ∈ ws'.
Proof.
  induction m as [|[k0 ws0] m IH]; simpl.
  - by intros ?%elem_of_nil.
  - intros Hin Hx. destruct (decide (k0 = k)) as [->|Hne].
    + apply elem_of_cons in Hin as [Heq|Hin].
      * injection Heq as -> ->. exists (ws0 ++ [w]).
        split; [apply list_elem_of_here | apply elem_of_app; by left].
      * exists ws. split; [by apply list_elem_of_further | done].
    + apply elem_of_cons in Hin as [Heq|Hin].
      * injection Heq as -> ->. exists ws0. split; [apply list_elem_of_here | done].
      * destruct (IH Hin Hx) as (ws' & Hin' & Hx').
        exists ws'. split; [by apply list_elem_of_further | done].
Qed.

Lemma with_key_has (k : string) (m : Clusters) : k ∈ (with_key k m).*1.
Proof.
  unfold with_key. destruct (map_has k m) eqn:Hk.
  - by apply map_has_spec.
  - rewrite map_set_fresh.
    + rewrite fmap_app. apply elem_of_app. right. apply list_elem_of_here.
    + intros H%map_has_spec. congruence.
Qed.

Lemma with_key_cases (k : string) (m : Clusters) :
  (k ∈ m.*1 ∧ with_key k m = m) ∨ ((k ∉ m.*1) ∧ with_key k m = m ++ [(k, [])]).
Proof.
  unfold with_key. destruct (map_has k m) eqn:Hk.
  - left. split; [by apply map_has_spec | done].
  - assert (k ∉ m.*1) by (intros H%map_has_spec; congruence).
    right. split; [done | by apply map_set_fresh].
Qed.

Lemma add_word_unfold (m : Clusters) (w : string) :
  add_word m w = map_push (signature w) w (with_key (signature w) m).
Proof. reflexivity. Qed.

Lemma add_word_partitions (m : Clusters) (dict : list string) (w : string) :
  w ∉ dict → index_partitions m dict → index_partitions (add_word m w) (dict ++ [w]).
Proof.
  intros Hw (Hperm & Hnd & Hkeys & Hsig). rewrite add_word_unfold.
  pose proof (with_key_has (signature w) m) as Hhas.
  assert (Hwords : concat (with_key (signature w) m).*2 = concat m.*2).
  { destruct (with_key_cases (signature w) m) as [[_ ->]|[_ ->]]; [done|].
    rewrite fmap_app, concat_app. csimpl. by rewrite List.app_nil_r. }
  assert (Hp : concat (map_push (signature w) w (with_key (signature w) m)).*2
               ≡ₚ dict ++ [w]).
  { rewrite map_push_words by done. rewrite Hwords, Hperm.
    apply Permutation_cons_append. }
  split_and!.
  - done.
  - rewrite Hp. apply NoDup_app. split_and!.
    + by rewrite <- Hperm.
    + intros x Hx ->%list_elem_of_singleton. done.
    + apply NoDup_singleton.
  - rewrite map_push_keys.
    destruct (with_key_cases (signature w) m) as [[_ ->]|[Hk ->]]; [done|].
    rewrite fmap_app. apply NoDup_app. split_and!; [done | | apply NoDup_singleton].
    intros x Hx ->%list_elem_of_singleton. done.
  - intros k ws x Hin Hx.
    apply map_push_entry in Hin as [Hin|(-> & ws0 & Hin & ->)].
    + destruct (with_key_cases (signature w) m) as [[_ Heq]|[_ Heq]];
        rewrite Heq in Hin; [by eapply Hsig|].
      apply elem_of_app in Hin as [Hin|Hin]; [by eapply Hsig|].
      apply list_elem_of_singleton in Hin. injection Hin as -> ->.
      by apply elem_of_nil in Hx.
    + apply elem_of_app in Hx as [Hx|Hx].
      * destruct (with_key_cases (signature w) m) as [[_ Heq]|[_ Heq]];
          rewrite Heq in Hin; [by eapply Hsig|].
        apply elem_of_app in Hin as [Hin|Hin]; [by eapply Hsig|].
        apply list_elem_of_singleton in Hin. injection Hin as ->.
        by apply elem_of_nil in Hx.
      * by apply list_elem_of_singleton in Hx as ->.
Qed.

Lemma fill_partitions (words : list string) (m : Clusters) (dict : list string) :
  NoDup (dict ++ words) → index_partitions m dict →
  index_partitions (foldl add_word m words) (dict ++ words).
Proof.
  revert m dict; induction words as [|w words IH]; intros m dict Hnd Hm; simpl.
  - by rewrite List.app_nil_r.
  - rewrite (cons_middle w dict words), (assoc_L (++)).
    rewrite (cons_middle w dict words), (assoc_L (++)) in Hnd.
    apply IH; [done|]. apply add_word_partitions; [|done].
    apply NoDup_app in Hnd as [Hnd _]. apply NoDup_app in Hnd as (_ & Hd & _).
    intros Hw. apply (Hd w Hw). apply list_elem_of_here.
Qed.

Lemma empty_index_partitions : index_partitions [] [].
Proof.
  split_and!; simpl; [done | apply NoDup_nil_2 | apply NoDup_nil_2 |].
  intros k ws w Hin. by apply elem_of_nil in Hin.
Qed.

Lemma fallback_NoDup : NoDup fallback.
Proof. apply (bool_decide_unpack _). vm_compute. exact I. Qed.

Lemma init_partitions_from (r : FetchOutcome) (e : WordEngine) :
  failed r = false ∨ clusters e = [] →
  index_partitions (clusters (init r e)) (dictionary (init r e)).
Proof.
  intros Hre.
  assert (Hfill : ∀ words, NoDup words → index_partitions (foldl add_word [] words) words).
  { intros words Hnd. apply (fill_partitions words [] []); [done|].
    apply empty_index_partitions. }
  destruct r; unfold init; cbn [clusters dictionary];
    try (destruct Hre as [Hre|Hre]; [discriminate Hre | rewrite Hre; apply Hfill, fallback_NoDup]).
  apply Hfill, unique_NoDup.
Qed.

(** ** C8: the index and the dictionary *)

(** C8. After [init] the index should partition the dictionary on either
    path.  The [catch] block lacks the [clusters.clear()] of the [try]
    block: when [init] runs twice on one engine and the fetch fails both
    times, every fallback word is filed twice (92 words in the clusters for
    a dictionary of 46), so the clusters are not the dictionary and repeat
    words. *)
Lemma twice_failed_init_breaks_partition :
  dictionary twice_failed_engine = fallback
  ∧ length (concat (clusters twice_failed_engine).*2) = 92
  ∧ map_get "rstu" (clusters twice_failed_engine) = Some ["rust"; "rust"]
  ∧ ¬ NoDup (concat (clusters twice_failed_engine).*2)
  ∧ ¬ (concat (clusters twice_failed_engine).*2 ≡ₚ dictionary twice_failed_engine)
  ∧ ¬ index_partitions (clusters twice_failed_engine) (dictionary twice_failed_engine).
Proof.
  assert (Hlen : length (concat (clusters twice_failed_engine).*2) = 92)
    by (vm_compute; reflexivity).
  assert (Hperm : ¬ (concat (clusters twice_failed_engine).*2
                      ≡ₚ dictionary twice_failed_engine)).
  { intros H%Permutation_length. rewrite Hlen in H. vm_compute in H. discriminate H. }
  split_and!.
  - reflexivity.
  - exact Hlen.
  - vm_compute. reflexivity.
  - apply (bool_decide_unpack _). vm_compute. exact I.
  - exact Hperm.
  - intros (H & _). by apply Hperm.
Qed.

(** X21. After [init] on a new engine, whether the text arrived or the
    fallback list was used, and after any [init] whose text arrived, the
    cluster lists together are the dictionary (a permutation of it, without
    a repeated word), each key has one cluster, and each word is in the
    cluster keyed by its own signature. *)
Theorem init_index_partitions :
  (∀ r : FetchOutcome,
      let e := init r new_engine in index_partitions (clusters e) (dictionary e))
  ∧ (∀ (text : string) (e0 : WordEngine),
      let e := init (FetchText text) e0 in index_partitions (clusters e) (dictionary e)).
Proof.
  split.
  - intros r. apply init_partitions_from. by right.
  - intros text e0. apply init_partitions_from. by left.
Qed.

(** The [catch] block does not clear the index: a failed [init] on an engine
    that is already loaded files the fallback words a second time. *)
Lemma failed_init_keeps_old_clusters :
  clusters (init FetchNotOk fallback_engine) !! 0 = Some ("rstu", ["rust"; "rust"]).
Proof. vm_compute. reflexivity. Qed.

(** ** Sorting and shuffling keep the elements *)

Lemma insert_by_perm {A} (cmp : A → A → Z) (x : A) (l : list A) :
  insert_by cmp x l ≡ₚ x :: l.
Proof.
  induction l as [|y l IH]; simpl; [done|].
  destruct (cmp x y <=? 0)%Z; [done|].
  rewrite IH. apply Permutation_swap.
Qed.

Lemma sort_by_perm {A} (cmp : A → A → Z) (l : list A) : sort_by cmp l ≡ₚ l.
Proof.
  induction l as [|x l IH]; simpl; [done|].
  by rewrite insert_by_perm, IH.
Qed.

Lemma split_join (l : list ascii) : split_chars (join_chars l) = l.
Proof. apply list_ascii_of_string_of_list_ascii. Qed.

Lemma join_split (s : string) : join_chars (split_chars s) = s.
Proof. apply string_of_list_ascii_of_string. Qed.

Lemma split_chars_length (s : string) : length (split_chars s) = String.length s.
Proof. induction s as [|c s IH]; simpl; [done | by rewrite IH]. Qed.

Lemma signature_perm (w : string) : split_chars (signature w) ≡ₚ split_chars w.
Proof. unfold signature. rewrite split_join. apply sort_by_perm. Qed.

Lemma signature_length (w : string) : String.length (signature w) = String.length w.
Proof.
  rewrite <- !split_chars_length. apply Permutation_length, signature_perm.
Qed.

Lemma toUpperCase_chars (w : string) :
  split_chars (toUpperCase w) = upper_char <$> split_chars w.
Proof. unfold toUpperCase. apply split_join. Qed.

Lemma swap_perm (i j : nat) (a : list ascii) : swap i j a ≡ₚ a.
Proof.
  unfold swap. destruct (a !! i) as [x|] eqn:Hi; [|done].
  destruct (a !! j) as [y|] eqn:Hj; [|done].
  by apply Permutation_insert_swap.
Qed.

Lemma shuffle_loop_perm (i : nat) (rng : Rng) (a : list ascii) :
  shuffle_loop i rng a ≡ₚ a.
Proof.
  revert rng a; induction i as [|i IH]; intros rng a; simpl; [done|].
  rewrite IH. apply swap_perm.
Qed.

Lemma shuffle_perm (rng : Rng) (a : list ascii) : shuffle rng a ≡ₚ a.
Proof. apply shuffle_loop_perm. Qed.

(** ** The root *)

Lemma floor_mul_lt (u : Draw) (n : nat) : 0 < n → floor_mul u n < n.
Proof.
  intros Hn. unfold floor_mul. apply Nat.Div0.div_lt_upper_bound. nia.
Qed.

(** The draw picks a word of a list that is not empty. *)
Lemma pick_in (u : Draw) (l : list string) :
  l ≠ [] → ∃ w, l !! floor_mul u (length l) = Some w ∧ w ∈ l.
Proof.
  intros Hl.
  assert (Hlt : floor_mul u (length l) < length l)
    by (apply floor_mul_lt; destruct l; [done | simpl; lia]).
  destruct (lookup_lt_is_Some_2 l _ Hlt) as [w Hw].
  exists w. split; [done | by eapply list_elem_of_lookup_2].
Qed.

Lemma or_default_some (w d : string) : w ≠ EmptyString → or_default (Some w) d = w.
Proof. by destruct w. Qed.

Lemma rootWords_of_elem (e : WordEngine) (t : Z) (w : string) :
  w ∈ rootWords_of e t ↔ Z.of_nat (String.length w) = t ∧ w ∈ dictionary e.
Proof. unfold rootWords_of. by rewrite list_elem_of_filter. Qed.

(** The three cases of the choice of the root. *)
Lemma chooseRoot_cases (e : WordEngine) (rng : Rng) (t : Z) :
  EmptyString ∉ dictionary e →
  let root := chooseRoot e rng t in
  (rootWords_of e t ≠ [] → root ∈ rootWords_of e t)
  ∧ (rootWords_of e t = [] → rootWords_of e 5 ≠ [] → root ∈ rootWords_of e 5)
  ∧ (rootWords_of e t = [] → rootWords_of e 5 = [] → root = "water").
Proof.
  intros Hne root. unfold root, chooseRoot.
  assert (Hpick : ∀ t', rootWords_of e t' ≠ [] →
            or_default (rootWords_of e t' !! floor_mul (rng 0) (length (rootWords_of e t')))
                       "water" ∈ rootWords_of e t').
  { intros t' Ht'. destruct (pick_in (rng 0) _ Ht') as (w & -> & Hw).
    rewrite or_default_some; [done|]. intros ->.
    apply rootWords_of_elem in Hw as [_ Hw]. done. }
  split_and!.
  - intros Ht. rewrite decide_False by (by destruct (rootWords_of e t)).
    by apply Hpick.
  - intros Ht H5. rewrite decide_True by (by rewrite Ht). by apply Hpick.
  - intros Ht H5. rewrite decide_True by (by rewrite Ht). by rewrite H5.
Qed.

(** ** The pool *)

Lemma candidatePool_bind (m : Clusters) (rootSorted : string) :
  candidatePool m rootSorted
  = m ≫= (λ '(k, ws), if isSubset k rootSorted then ws else []).
Proof.
  unfold candidatePool.
  enough (H : ∀ acc, foldl (λ allValid '(sortedLetters, words),
                if isSubset sortedLetters rootSorted then allValid ++ words else allValid)
              acc m
            = acc ++ (m ≫= (λ '(k, ws), if isSubset k rootSorted then ws else [])))
    by apply (H []).
  induction m as [|[k ws] m IH]; intros acc; csimpl.
  - by rewrite List.app_nil_r.
  - rewrite IH. destruct (isSubset k rootSorted); [by rewrite (assoc_L (++)) | done].
Qed.

Lemma candidatePool_elem (m : Clusters) (rootSorted w : string) :
  w ∈ candidatePool m rootSorted ↔
  ∃ k ws, (k, ws) ∈ m ∧ isSubset k rootSorted = true ∧ w ∈ ws.
Proof.
  rewrite candidatePool_bind, list_elem_of_bind. split.
  - intros ([k ws] & Hw & Hin). exists k, ws.
    destruct (isSubset k rootSorted); [done | by apply elem_of_nil in Hw].
  - intros (k & ws & Hin & Hsub & Hw). exists (k, ws). by rewrite Hsub.
Qed.

Lemma candidatePool_sublist (m : Clusters) (rootSorted : string) :
  candidatePool m rootSorted `sublist_of` concat m.*2.
Proof.
  rewrite candidatePool_bind.
  induction m as [|[k ws] m IH]; csimpl; [done|].
  destruct (isSubset k rootSorted).
  - by apply sublist_app.
  - by apply sublist_inserts_l.
Qed.

Lemma candidatePool_NoDup (m : Clusters) (rootSorted : string) :
  NoDup (concat m.*2) → NoDup (candidatePool m rootSorted).
Proof. intros H. eapply sublist_NoDup; [done | apply candidatePool_sublist]. Qed.

Lemma isSubset_refl (s : string) : isSubset s s = true.
Proof. apply isSubset_spec. done. Qed.

(** A word filed under its signature is in the pool of its own root. *)
Lemma root_in_pool (m : Clusters) (root : string) (ws : list string) :
  (signature root, ws) ∈ m → root ∈ ws → root ∈ candidatePool m (signature root).
Proof.
  intros Hin Hw. apply candidatePool_elem.
  exists (signature root), ws. by rewrite isSubset_refl.
Qed.

Lemma chooseRoot_default (e : WordEngine) (rng : Rng) (t : Z) :
  rootWords_of e t = [] → rootWords_of e 5 = [] → chooseRoot e rng t = "water".
Proof.
  intros Ht H5. unfold chooseRoot.
  rewrite decide_True by (by rewrite Ht). by rewrite H5.
Qed.

Lemma with_key_keeps (k : string) (m : Clusters) (x : string * list string) :
  x ∈ m → x ∈ with_key k m.
Proof.
  intros Hx. destruct (with_key_cases k m) as [[_ ->]|[_ ->]]; [done|].
  apply elem_of_app. by left.
Qed.

Lemma add_word_files (m : Clusters) (w : string) : filed (add_word m w) w.
Proof. rewrite add_word_unfold. apply map_push_lands, with_key_has. Qed.

Lemma add_word_keeps_filed (m : Clusters) (w x : string) :
  filed m x → filed (add_word m w) x.
Proof.
  intros (ws & Hin & Hx). rewrite add_word_unfold.
  eapply map_push_keeps; [by apply with_key_keeps | done].
Qed.

Lemma fill_files (words : list string) (m : Clusters) (x : string) :
  x ∈ words ∨ filed m x → filed (foldl add_word m words) x.
Proof.
  revert m; induction words as [|w words IH]; intros m; simpl.
  - intros [H|H]; [by apply elem_of_nil in H | done].
  - intros [[->|H]%elem_of_cons|H]; apply IH.
    + right. apply add_word_files.
    + by left.
    + right. by apply add_word_keeps_filed.
Qed.

Lemma init_files_dictionary (r : FetchOutcome) (e : WordEngine) (w : string) :
  w ∈ dictionary (init r e) → filed (clusters (init r e)) w.
Proof.
  destruct r; unfold init; cbn [clusters dictionary]; intros Hw;
    apply fill_files; by left.
Qed.

Lemma init_no_empty_word (r : FetchOutcome) (e : WordEngine) :
  EmptyString ∉ dictionary (init r e).
Proof. intros H%init_dictionary_admissible. discriminate H. Qed.

(** ** The selection *)

Section GeneratorFacts.
Variable pow_score : Draw → nat → Q.
Variable localeCompare : string → string → Z.

Lemma scored_words (rng : Rng) (pool : list string) :
  (imap (λ i word, (word, pow_score (rng i) (String.length word))) pool).*1 = pool.
Proof.
  rewrite fmap_imap. rewrite (imap_ext _ (const id)) by done.
  by rewrite imap_const, list_fmap_id.
Qed.

Lemma selectWords_small (rng : Rng) (pool : list string) :
  length pool ≤ maxWords → selectWords pow_score rng pool = pool.
Proof. intros H. unfold selectWords. by rewrite decide_True. Qed.

Lemma selectWords_large (rng : Rng) (pool : list string) :
  maxWords < length pool →
  length (selectWords pow_score rng pool) = maxWords
  ∧ selectWords pow_score rng pool ⊆+ pool.
Proof.
  intros H. unfold selectWords. rewrite decide_False by lia. split.
  - rewrite length_fmap, length_take_le; [done|].
    rewrite (Permutation_length (sort_by_perm _ _)), length_imap. lia.
  - rewrite <- (scored_words rng pool) at 2.
    rewrite <- (sort_by_perm score_cmp (imap _ pool)) at 2.
    apply fmap_submseteq, submseteq_take.
Qed.

Lemma selectWords_submseteq (rng : Rng) (pool : list string) :
  selectWords pow_score rng pool ⊆+ pool.
Proof.
  destruct (decide (length pool ≤ maxWords)) as [H|H].
  - by rewrite selectWords_small.
  - apply selectWords_large. lia.
Qed.

Lemma validWords_unfold (e : WordEngine) (rng : Rng) (t : Z) :
  validWords (generateLevel pow_score localeCompare e rng t)
  = sort_by (word_cmp localeCompare)
            (selectWords pow_score (skip 1 rng) (level_pool e rng t)).
Proof. reflexivity. Qed.

Lemma validWords_submseteq (e : WordEngine) (rng : Rng) (t : Z) :
  validWords (generateLevel pow_score localeCompare e rng t) ⊆+ level_pool e rng t.
Proof.
  rewrite validWords_unfold, sort_by_perm. apply selectWords_submseteq.
Qed.

Lemma submseteq_NoDup (l k : list string) : l ⊆+ k → NoDup k → NoDup l.
Proof.
  intros [k' Hk]%submseteq_Permutation Hnd. rewrite Hk in Hnd.
  by apply NoDup_app in Hnd as [? _].
Qed.

Lemma validWords_nonempty (e : WordEngine) (rng : Rng) (t : Z) :
  level_pool e rng t ≠ [] →
  validWords (generateLevel pow_score localeCompare e rng t) ≠ [].
Proof.
  intros Hpool Hnil. apply (f_equal length) in Hnil.
  rewrite validWords_unfold, (Permutation_length (sort_by_perm _ _)) in Hnil.
  destruct (decide (length (level_pool e rng t) ≤ maxWords)) as [H|H].
  - rewrite selectWords_small in Hnil by done.
    by destruct (level_pool e rng t).
  - destruct (selectWords_large (skip 1 rng) (level_pool e rng t)) as [Hl _]; [lia|].
    rewrite Hl in Hnil. discriminate Hnil.
Qed.

Lemma displayLetters_perm (e : WordEngine) (rng : Rng) (t : Z) :
  displayLetters (generateLevel pow_score localeCompare e rng t)
  ≡ₚ upper_char <$> split_chars (chooseRoot e rng t).
Proof.
  unfold generateLevel; cbn [displayLetters].
  rewrite shuffle_perm. by rewrite toUpperCase_chars.
Qed.
End GeneratorFacts.

(** ** C3: the cap on [validWords] *)

(** C3. A pool of more than 12 words should give 12 words without a
    repetition.  On the engine where [init] failed twice the index files
    each fallback word twice (the [catch] block of [init] does not clear
    it): with the root "react" the pool has 16 words, 8 of them distinct,
    and the 12 words of [validWords] repeat "rate", "tear", "react" and
    "trace". *)
Lemma twice_failed_init_repeats_validWords :
  let lvl := generateLevel flat_score code_unit_compare twice_failed_engine react_rng 6 in
  chooseRoot twice_failed_engine react_rng 6 = "react"
  ∧ level_pool twice_failed_engine react_rng 6
    = ["react"; "trace"; "cater"; "crate"; "react"; "trace"; "cater"; "crate";
       "rate"; "tear"; "rate"; "tear"; "care"; "race"; "care"; "race"]
  ∧ 12 < length (level_pool twice_failed_engine react_rng 6)
  ∧ validWords lvl
    = ["care"; "race"; "rate"; "rate"; "tear"; "tear"; "cater"; "crate";
       "react"; "react"; "trace"; "trace"]
  ∧ ¬ NoDup (validWords lvl).
Proof.
  intros lvl.
  assert (Hv : validWords lvl
               = ["care"; "race"; "rate"; "rate"; "tear"; "tear"; "cater"; "crate";
                  "react"; "react"; "trace"; "trace"]) by (vm_compute; reflexivity).
  split_and!.
  - vm_compute. reflexivity.
  - vm_compute. reflexivity.
  - vm_compute. lia.
  - exact Hv.
  - rewrite Hv. apply (bool_decide_unpack _). vm_compute. exact I.
Qed.

(** X22. In every call, the pool holds the words of the clusters whose key
    passes the subset scan against the root's signature; when it has at most
    12 words, [validWords] is the pool (sorted); when it has more,
    [validWords] has 12 words taken from the pool, none more often than the
    pool holds it.  After [init] on a new engine the pool is the set of
    dictionary words whose signature passes the scan, and [validWords]
    repeats no word. *)
Theorem generateLevel_caps_validWords
    (pow_score : Draw → nat → Q) (localeCompare : string → string → Z) :
  (∀ (e : WordEngine) (rng : Rng) (t : Z),
      let lvl := generateLevel pow_score localeCompare e rng t in
      let pool := level_pool e rng t in
      (∀ w, w ∈ pool ↔
            ∃ k ws, (k, ws) ∈ clusters e ∧ isSubset k (rootLetters lvl) = true ∧ w ∈ ws)
      ∧ (length pool ≤ 12 →
           validWords lvl = sort_by (word_cmp localeCompare) pool
           ∧ validWords lvl ≡ₚ pool)
      ∧ (12 < length pool →
           length (validWords lvl) = 12 ∧ validWords lvl ⊆+ pool))
  ∧ (∀ (r : FetchOutcome) (rng : Rng) (t : Z),
      let e := init r new_engine in
      let lvl := generateLevel pow_score localeCompare e rng t in
      (∀ w, w ∈ level_pool e rng t ↔
            w ∈ dictionary e ∧ isSubset (signature w) (rootLetters lvl) = true)
      ∧ NoDup (level_pool e rng t)
      ∧ NoDup (validWords lvl)).
Proof.
  split.
  - intros e rng t lvl pool. split_and!.
    + intros w. apply candidatePool_elem.
    + intros H. unfold lvl. rewrite validWords_unfold.
      fold pool. rewrite selectWords_small by done.
      split; [done | apply sort_by_perm].
    + intros H. unfold lvl. rewrite validWords_unfold. fold pool.
      destruct (selectWords_large pow_score (skip 1 rng) pool) as [Hl Hs]; [done|].
      split.
      * by rewrite (Permutation_length (sort_by_perm _ _)).
      * by rewrite sort_by_perm.
  - intros r rng t e lvl.
    destruct (init_partitions_from r new_engine) as (Hperm & Hnd & Hkeys & Hsig);
      [by right|]. fold e in Hperm, Hnd, Hkeys, Hsig.
    assert (Hpool : NoDup (level_pool e rng t)) by by apply candidatePool_NoDup.
    split_and!; [| done |].
    + intros w. unfold level_pool. rewrite candidatePool_elem. split.
      * intros (k & ws & Hin & Hsub & Hw).
        rewrite <- (Hsig k ws w Hin Hw). split; [|done].
        rewrite <- Hperm. apply list_elem_of_In, in_concat.
        exists ws. split; [|by apply list_elem_of_In].
        apply list_elem_of_In, list_elem_of_fmap. by exists (k, ws).
      * intros [Hw Hsub].
        destruct (init_files_dictionary r new_engine w Hw) as (ws & Hin & Hws).
        by exists (signature w), ws.
    + eapply submseteq_NoDup; [apply validWords_submseteq | done].
Qed.

Lemma generateLevel_caps_validWords_witness :
  let e := init (FetchText strain_text) new_engine in
  let lvl := generateLevel flat_score code_unit_compare e cycle_rng 6 in
  length (level_pool e cycle_rng 6) = 18
  ∧ length (validWords lvl) = 12
  ∧ validWords lvl ⊆+ level_pool e cycle_rng 6
  ∧ NoDup (validWords lvl).
Proof.
  intros e lvl.
  destruct (generateLevel_caps_validWords flat_score code_unit_compare) as [Hany Hinit].
  destruct (Hany e cycle_rng 6%Z) as (_ & _ & Hcap).
  destruct (Hinit (FetchText strain_text) cycle_rng 6%Z) as (_ & _ & Hnd).
  assert (Hlen : length (level_pool e cycle_rng 6) = 18) by (vm_compute; reflexivity).
  destruct Hcap as [H12 Hsub]; [rewrite Hlen; lia|].
  split_and!; done.
Defined.

(** ** C5: the choice of the root *)

(** C5. [generateLevel(targetLength)] takes its root among the dictionary
    words of exactly [targetLength] characters; when there is none, among
    those of 5 characters; when there is none either, the root is "water".
    The call returns a level in each case: its [rootLetters] are the
    signature of that root. *)
Theorem generateLevel_root_selection
    (pow_score : Draw → nat → Q) (localeCompare : string → string → Z)
    (e : WordEngine) (rng : Rng) (targetLength : Z) :
  EmptyString ∉ dictionary e →
  let root := chooseRoot e rng targetLength in
  let candidates := rootWords_of e targetLength in
  (∀ w, w ∈ candidates ↔ w ∈ dictionary e ∧ Z.of_nat (String.length w) = targetLength)
  ∧ (candidates ≠ [] → root ∈ candidates)
  ∧ (candidates = [] → rootWords_of e 5 ≠ [] → root ∈ rootWords_of e 5)
  ∧ (candidates = [] → rootWords_of e 5 = [] → root = "water")
  ∧ ∃ lvl, generateLevel pow_score localeCompare e rng targetLength = lvl
           ∧ rootLetters lvl = signature root.
Proof.
  intros Hne root candidates.
  destruct (chooseRoot_cases e rng targetLength Hne) as (H1 & H2 & H3).
  split_and!; [| done | done | done | by eexists].
  intros w. unfold candidates. rewrite rootWords_of_elem. tauto.
Qed.

Lemma generateLevel_root_selection_witness :
  (EmptyString ∉ dictionary fallback_engine)
  ∧ rootWords_of fallback_engine 6 = []
  ∧ chooseRoot fallback_engine cycle_rng 6 ∈ rootWords_of fallback_engine 5
  ∧ chooseRoot fallback_engine cycle_rng 4 ∈ rootWords_of fallback_engine 4.
Proof.
  assert (Hne : EmptyString ∉ dictionary fallback_engine)
    by apply init_no_empty_word.
  destruct (generateLevel_root_selection flat_score code_unit_compare
              fallback_engine cycle_rng 6%Z Hne) as (_ & _ & H6 & _).
  destruct (generateLevel_root_selection flat_score code_unit_compare
              fallback_engine cycle_rng 4%Z Hne) as (_ & H4 & _).
  split_and!; [done | reflexivity | | ].
  - apply H6; [reflexivity|]. vm_compute. discriminate.
  - apply H4. vm_compute. discriminate.
Defined.

(** ** C6: no word of seven letters *)

(** C6, as stated, fails: with no word of seven letters, [generateLevel(7)]
    goes to the words of five letters, not to those of six.  On a dictionary
    with "strain" and "train" the root is "train"; on the fallback
    dictionary, which has no word of six letters either, it has five
    letters. *)
Lemma generateLevel_7_skips_six_letter_words :
  rootWords_of small_engine 7 = []
  ∧ rootWords_of small_engine 6 = ["strain"]
  ∧ chooseRoot small_engine zero_rng 7 = "train"
  ∧ (chooseRoot small_engine zero_rng 7 ∉ rootWords_of small_engine 6)
  ∧ rootLetters (generateLevel flat_score code_unit_compare small_engine zero_rng 7)
    = "ainrt"
  ∧ rootWords_of fallback_engine 7 = []
  ∧ String.length
      (rootLetters (generateLevel flat_score code_unit_compare fallback_engine cycle_rng 7))
    = 5.
Proof.
  split_and!; try (vm_compute; reflexivity).
  apply (bool_decide_unpack _). vm_compute. exact I.
Qed.

(** C6 (amended). On a dictionary without a word of seven letters,
    [generateLevel(7)] returns a level whose root is one of the words of five
    letters, when there is one, and "water" otherwise. *)
Theorem generateLevel_7_falls_back_to_five
    (pow_score : Draw → nat → Q) (localeCompare : string → string → Z)
    (e : WordEngine) (rng : Rng) :
  EmptyString ∉ dictionary e →
  rootWords_of e 7 = [] →
  let root := chooseRoot e rng 7 in
  rootLetters (generateLevel pow_score localeCompare e rng 7) = signature root
  ∧ (rootWords_of e 5 ≠ [] →
       root ∈ dictionary e ∧ String.length root = 5
       ∧ String.length (rootLetters (generateLevel pow_score localeCompare e rng 7)) = 5)
  ∧ (rootWords_of e 5 = [] → root = "water").
Proof.
  intros Hne H7 root.
  destruct (chooseRoot_cases e rng 7 Hne) as (_ & H5 & Hd).
  split_and!; [done | | by apply Hd].
  intros Hfive. pose proof (H5 H7 Hfive) as Hroot.
  apply rootWords_of_elem in Hroot as [Hlen Hin]. fold root in Hlen, Hin.
  assert (String.length root = 5) by lia.
  split_and!; [done | done |].
  change (String.length (signature root) = 5). by rewrite signature_length.
Qed.

Lemma generateLevel_7_falls_back_to_five_witness :
  (EmptyString ∉ dictionary small_engine)
  ∧ rootWords_of small_engine 7 = []
  ∧ rootWords_of small_engine 5 ≠ []
  ∧ chooseRoot small_engine cycle_rng 7 ∈ dictionary small_engine
  ∧ String.length (chooseRoot small_engine cycle_rng 7) = 5.
Proof.
  assert (Hne : EmptyString ∉ dictionary small_engine)
    by (apply (bool_decide_unpack _); vm_compute; exact I).
  assert (H5 : rootWords_of small_engine 5 ≠ []) by (vm_compute; discriminate).
  destruct (generateLevel_7_falls_back_to_five flat_score code_unit_compare
              small_engine cycle_rng Hne eq_refl) as (_ & Hfive & _).
  destruct (Hfive H5) as (Hin & Hlen & _).
  split_and!; [done | reflexivity | done | done | done].
Defined.

(** ** C7: a failed fetch leaves a playable engine *)

Lemma fallback_has_no_six_letter_word (e : WordEngine) :
  dictionary e = fallback → rootWords_of e 6 = [] ∧ rootWords_of e 5 ≠ [].
Proof.
  intros He. unfold rootWords_of. rewrite He. split; [reflexivity|].
  vm_compute. discriminate.
Qed.

(** C7. [init] returns an engine for every outcome of the fetch.  When the
    fetch fails, on a new engine or on one that was loaded before, the
    dictionary is the fallback list, which is not empty, and
    [generateLevel(6)] then returns a level whose [validWords] are not empty
    (its root, a word of five letters, is in the pool). *)
Theorem init_failure_is_playable
    (pow_score : Draw → nat → Q) (localeCompare : string → string → Z)
    (r : FetchOutcome) (e0 : WordEngine) (rng : Rng) :
  failed r = true →
  ∃ e, init r e0 = e
       ∧ dictionary e = fallback
       ∧ dictionary e ≠ []
       ∧ (∀ w, w ∈ dictionary e → isValidWord e w = true)
       ∧ ∃ lvl, generateLevel pow_score localeCompare e rng 6 = lvl
                ∧ validWords lvl ≠ []
                ∧ chooseRoot e rng 6 ∈ level_pool e rng 6.
Proof.
  intros Hr. exists (init r e0).
  pose proof (init_failed_dictionary r e0 Hr) as Hd.
  destruct (fallback_has_no_six_letter_word _ Hd) as [H6 H5].
  pose proof (chooseRoot_cases (init r e0) rng 6 (init_no_empty_word r e0))
    as (_ & Hroot & _).
  specialize (Hroot H6 H5). apply rootWords_of_elem in Hroot as [_ Hroot].
  destruct (init_files_dictionary r e0 _ Hroot) as (ws & Hin & Hws).
  assert (Hpool : chooseRoot (init r e0) rng 6 ∈ level_pool (init r e0) rng 6)
    by (by eapply root_in_pool).
  split_and!; [done | done | by rewrite Hd | |].
  - intros w Hw. unfold isValidWord. apply bool_decide_eq_true.
    assert (Hlow : toLowerCase w = w).
    { rewrite Hd in Hw. revert w Hw. apply Forall_forall.
      apply (bool_decide_unpack _). vm_compute. exact I. }
    rewrite Hlow. destruct r; try discriminate Hr;
      unfold init; cbn [dictionary dictionarySet] in *;
      by apply elem_of_list_to_set.
  - eexists. split; [done|]. split; [|done].
    apply validWords_nonempty. intros Hnil. rewrite Hnil in Hpool.
    by apply elem_of_nil in Hpool.
Qed.

Lemma init_failure_is_playable_witness :
  failed FetchBodyRejected = true
  ∧ ∃ e, init FetchBodyRejected new_engine = e
         ∧ dictionary e = fallback
         ∧ dictionary e ≠ []
         ∧ (∀ w, w ∈ dictionary e → isValidWord e w = true)
         ∧ ∃ lvl, generateLevel flat_score code_unit_compare e cycle_rng 6 = lvl
                  ∧ validWords lvl ≠ []
                  ∧ chooseRoot e cycle_rng 6 ∈ level_pool e cycle_rng 6.
Proof.
  split; [reflexivity|].
  apply (init_failure_is_playable flat_score code_unit_compare
           FetchBodyRejected new_engine cycle_rng).
  reflexivity.
Defined.

(** ** C9: the letters on display *)

(** C9, as stated, fails: [displayLetters] are upper-case and [rootLetters]
    are lower-case, so the two never have a letter in common.  With the
    fallback dictionary and every draw at zero the level shows "RUSTT" for
    the root letters "rsttu". *)
Lemma displayLetters_not_rootLetters :
  let lvl := generateLevel flat_score code_unit_compare fallback_engine zero_rng 6 in
  rootLetters lvl = "rsttu"
  ∧ displayLetters lvl = split_chars "RUSTT"
  ∧ ¬ (displayLetters lvl ≡ₚ split_chars (rootLetters lvl)).
Proof.
  intros lvl.
  assert (Hr : rootLetters lvl = "rsttu") by (vm_compute; reflexivity).
  assert (Hd : displayLetters lvl = split_chars "RUSTT") by (vm_compute; reflexivity).
  split_and!; [done | done |].
  rewrite Hr, Hd. intros Hperm.
  assert (Hin : "R"%char ∈ split_chars "RUSTT")
    by (apply (bool_decide_unpack _); vm_compute; exact I).
  rewrite Hperm in Hin. revert Hin.
  apply (bool_decide_unpack _). vm_compute. exact I.
Qed.

(** C9 (amended). For every level, [displayLetters] is a permutation of the
    upper-cased characters of [rootLetters]: the same letters with the same
    multiplicities once [rootLetters] is put in upper case, and as many of
    them as the root word has characters. *)
Theorem displayLetters_permutes_upper_root
    (pow_score : Draw → nat → Q) (localeCompare : string → string → Z)
    (e : WordEngine) (rng : Rng) (t : Z) :
  let lvl := generateLevel pow_score localeCompare e rng t in
  displayLetters lvl ≡ₚ split_chars (toUpperCase (rootLetters lvl))
  ∧ displayLetters lvl ≡ₚ split_chars (toUpperCase (chooseRoot e rng t))
  ∧ length (displayLetters lvl) = String.length (chooseRoot e rng t)
  ∧ length (displayLetters lvl) = String.length (rootLetters lvl).
Proof.
  intros lvl.
  pose proof (displayLetters_perm pow_score localeCompare e rng t) as Hp.
  fold lvl in Hp.
  assert (Hlen : length (displayLetters lvl) = String.length (chooseRoot e rng t)).
  { rewrite (Permutation_length Hp), length_fmap. apply split_chars_length. }
  split_and!.
  - rewrite Hp, toUpperCase_chars.
    change (rootLetters lvl) with (signature (chooseRoot e rng t)).
    by rewrite signature_perm.
  - by rewrite toUpperCase_chars.
  - done.
  - rewrite Hlen. symmetry. apply signature_length.
Qed.

(** ** C10: [generateLevel] on any engine *)

(** C10. [generateLevel] returns a level for every engine and every target
    length: its [foundWords] are empty, its [rootLetters] are the signature
    of the root and its [validWords] come from the pool.  When the
    dictionary has no word of the target length and none of length 5, as
    when it is empty, the root is "water": the root letters are "aertw" and
    the display shows the letters of "WATER".  On a new engine [validWords]
    is then empty. *)
Theorem generateLevel_total
    (pow_score : Draw → nat → Q) (localeCompare : string → string → Z)
    (e : WordEngine) (rng : Rng) (t : Z) :
  ∃ lvl, generateLevel pow_score localeCompare e rng t = lvl
    ∧ foundWords lvl = ∅
    ∧ rootLetters lvl = signature (chooseRoot e rng t)
    ∧ validWords lvl ⊆+ level_pool e rng t
    ∧ (rootWords_of e t = [] → rootWords_of e 5 = [] →
         chooseRoot e rng t = "water"
         ∧ rootLetters lvl = "aertw"
         ∧ displayLetters lvl ≡ₚ split_chars "WATER")
    ∧ (dictionary e = [] → clusters e = [] →
         rootLetters lvl = "aertw" ∧ validWords lvl = []).
Proof.
  eexists. split; [reflexivity|].
  split_and!; [done | done | apply validWords_submseteq | |].
  - intros Ht H5. pose proof (chooseRoot_default e rng t Ht H5) as Hw.
    split_and!; [done | |].
    + change (signature (chooseRoot e rng t) = "aertw"). by rewrite Hw.
    + rewrite displayLetters_perm, Hw. done.
  - intros Hd Hc.
    assert (Hw : chooseRoot e rng t = "water")
      by (apply chooseRoot_default; unfold rootWords_of; by rewrite Hd).
    split.
    + change (signature (chooseRoot e rng t) = "aertw"). by rewrite Hw.
    + apply submseteq_nil_r.
      rewrite <- (eq_refl : candidatePool [] (signature (chooseRoot e rng t)) = []).
      rewrite <- Hc. apply validWords_submseteq.
Qed.

Lemma generateLevel_total_witness :
  rootWords_of new_engine 7 = [] ∧ rootWords_of new_engine 5 = []
  ∧ ∃ lvl, generateLevel flat_score code_unit_compare new_engine cycle_rng 7 = lvl
      ∧ foundWords lvl = ∅
      ∧ rootLetters lvl = "aertw"
      ∧ displayLetters lvl ≡ₚ split_chars "WATER"
      ∧ validWords lvl = [].
Proof.
  split; [reflexivity|]. split; [reflexivity|].
  destruct (generateLevel_total flat_score code_unit_compare new_engine cycle_rng 7)
    as (lvl & Hl & Hf & _ & _ & Hwater & Hempty).
  destruct (Hwater eq_refl eq_refl) as (_ & Hr & Hd).
  destruct (Hempty eq_refl eq_refl) as [_ Hv].
  exists lvl. split_and!; done.
Defined.

(** * Further properties of the engine *)

(** ** Sorted output *)

Lemma insert_by_sorted {A} (cmp : A → A → Z) (R : relation A) (x : A) (l : list A) :
  (∀ a b, (cmp a b ≤ 0)%Z → R a b) →
  (∀ a b, (0 < cmp a b)%Z → R b a) →
  Transitive R →
  StronglySorted R l → StronglySorted R (insert_by cmp x l).
Proof.
  intros Hle Hgt Htr. induction 1 as [|y l Hs IH Hy]; simpl.
  - repeat constructor.
  - destruct (Z.leb_spec (cmp x y) 0) as [Hc|Hc].
    + constructor; [by constructor|]. constructor; [by apply Hle|].
      eapply Forall_impl; [exact Hy|]. intros z Hz. by etrans; [apply Hle|].
    + constructor; [done|]. rewrite insert_by_perm. constructor; [by apply Hgt | done].
Qed.

Lemma sort_by_sorted {A} (cmp : A → A → Z) (R : relation A) (l : list A) :
  (∀ a b, (cmp a b ≤ 0)%Z → R a b) →
  (∀ a b, (0 < cmp a b)%Z → R b a) →
  Transitive R →
  StronglySorted R (sort_by cmp l).
Proof.
  intros Hle Hgt Htr. induction l as [|x l IH]; simpl; [constructor|].
  by apply insert_by_sorted.
Qed.

Lemma code_inj (a b : ascii) : code a = code b → a = b.
Proof.
  unfold code. intros H.
  by rewrite <- (ascii_nat_embedding a), <- (ascii_nat_embedding b), H.
Qed.

Lemma char_le_trans : Transitive char_le.
Proof. unfold char_le. intros a b c. lia. Qed.

Lemma char_le_antisym : AntiSymm eq char_le.
Proof. unfold char_le. intros a b H1 H2. apply code_inj. lia. Qed.

Lemma sort_chars_sorted (l : list ascii) : StronglySorted char_le (sort_by char_cmp l).
Proof.
  apply sort_by_sorted; [| | apply char_le_trans];
    unfold char_cmp, char_le; intros a b; lia.
Qed.

Lemma sorted_chars_unique (l1 l2 : list ascii) :
  StronglySorted char_le l1 → StronglySorted char_le l2 → l1 ≡ₚ l2 → l1 = l2.
Proof. apply StronglySorted_unique, char_le_antisym. Qed.

Lemma join_chars_inj (l1 l2 : list ascii) : join_chars l1 = join_chars l2 → l1 = l2.
Proof. intros H. by rewrite <- (split_join l1), <- (split_join l2), H. Qed.

Lemma signature_eq_anagrams (a b : string) :
  signature a = signature b ↔ anagrams a b.
Proof.
  unfold anagrams. split.
  - intros H. by rewrite <- (signature_perm a), <- (signature_perm b), H.
  - intros H. unfold signature. f_equal.
    apply sorted_chars_unique; [apply sort_chars_sorted | apply sort_chars_sorted |].
    by rewrite !sort_by_perm.
Qed.

(** X1. Two words have the same signature exactly when they are anagrams
    of each other. *)
Theorem signature_eq_iff_anagrams (a b : string) :
  signature a = signature b ↔ anagrams a b.
Proof. apply signature_eq_anagrams. Qed.

(** X2. A signature has its characters in ascending order of code unit, as
    many as the word has, and is its own signature. *)
Theorem signature_sorted_idempotent (w : string) :
  StronglySorted char_le (split_chars (signature w))
  ∧ String.length (signature w) = String.length w
  ∧ signature (signature w) = signature w.
Proof.
  split_and!.
  - unfold signature. rewrite split_join. apply sort_chars_sorted.
  - apply signature_length.
  - apply signature_eq_anagrams, signature_perm.
Qed.

(** ** Looking a signature up in the index *)

Lemma map_has_get (k : string) (m : Clusters) :
  map_has k m = true ↔ is_Some (map_get k m).
Proof.
  rewrite map_has_spec. induction m as [|[k' v] m IH]; csimpl.
  - split; [by intros ?%elem_of_nil | by intros [? ?]].
  - destruct (decide (k' = k)) as [->|Hne].
    + split; [by eexists | intros _; apply list_elem_of_here].
    + rewrite elem_of_cons, IH. split; [intros [?|?]; [congruence | done] | by right].
Qed.

Lemma map_get_app (k : string) (m1 m2 : Clusters) :
  map_get k (m1 ++ m2) = match map_get k m1 with
                         | Some v => Some v
                         | None => map_get k m2
                         end.
Proof.
  induction m1 as [|[k' v] m1 IH]; simpl; [done|].
  by destruct (decide (k' = k)).
Qed.

Lemma map_get_with_key (k k' : string) (m : Clusters) :
  map_get k' (with_key k m)
  = if decide (k' = k) then Some (default [] (map_get k m)) else map_get k' m.
Proof.
  unfold with_key. destruct (map_has k m) eqn:Hk.
  - apply map_has_get in Hk as [v Hv].
    destruct (decide (k' = k)) as [->|]; [by rewrite Hv | done].
  - assert (Hnone : map_get k m = None).
    { destruct (map_get k m) eqn:Hg; [|done].
      assert (map_has k m = true) by (apply map_has_get; by eexists). congruence. }
    rewrite map_set_fresh by (intros H%map_has_spec; congruence).
    rewrite map_get_app. simpl.
    destruct (decide (k' = k)) as [->|Hne].
    + rewrite Hnone. by rewrite decide_True.
    + rewrite decide_False by done. by destruct (map_get k' m).
Qed.

Lemma map_get_push (k k' w : string) (m : Clusters) :
  map_get k' (map_push k w m)
  = if decide (k' = k) then (λ ws, ws ++ [w]) <$> map_get k m else map_get k' m.
Proof.
  induction m as [|[k0 ws] m IH]; simpl.
  - by destruct (decide (k' = k)).
  - destruct (decide (k0 = k)) as [->|Hne]; simpl.
    + destruct (decide (k = k')) as [->|Hne'].
      * by rewrite decide_True.
      * by rewrite decide_False.
    + destruct (decide (k0 = k')) as [->|Hne'].
      * by rewrite decide_False.
      * exact IH.
Qed.

Lemma map_get_add_word (k w : string) (m : Clusters) :
  map_get k (add_word m w)
  = if decide (k = signature w) then Some (default [] (map_get k m) ++ [w])
    else map_get k m.
Proof.
  rewrite add_word_unfold, map_get_push.
  destruct (decide (k = signature w)) as [->|Hne].
  - rewrite map_get_with_key. by rewrite decide_True.
  - rewrite map_get_with_key. by rewrite decide_False.
Qed.

Lemma map_get_fill (k : string) (words : list string) (m : Clusters) :
  map_get k (foldl add_word m words)
  = match filter (λ w, signature w = k) words with
    | [] => map_get k m
    | ws => Some (default [] (map_get k m) ++ ws)
    end.
Proof.
  revert m; induction words as [|w words IH]; intros m; simpl; [done|].
  rewrite IH, map_get_add_word, filter_cons.
  destruct (decide (signature w = k)) as [<-|Hne].
  - rewrite decide_True by done. simpl.
    destruct (filter _ words) as [|x xs]; simpl; [done|].
    by rewrite <- (assoc_L (++)).
  - by rewrite decide_False by done.
Qed.

Lemma add_word_keys (m : Clusters) (w : string) :
  (add_word m w).*1 = set_add m.*1 (signature w).
Proof.
  rewrite add_word_unfold, map_push_keys. unfold set_add.
  destruct (with_key_cases (signature w) m) as [[Hk ->]|[Hk ->]].
  - by rewrite bool_decide_eq_true_2.
  - rewrite bool_decide_eq_false_2 by done. by rewrite fmap_app.
Qed.

Lemma fill_keys (words : list string) (m : Clusters) :
  (foldl add_word m words).*1 = foldl set_add m.*1 (signature <$> words).
Proof.
  revert m; induction words as [|w words IH]; intros m; csimpl; [done|].
  by rewrite IH, add_word_keys.
Qed.

Lemma map_entries_get (m : Clusters) :
  NoDup m.*1 → m = (λ k, (k, default [] (map_get k m))) <$> m.*1.
Proof.
  induction m as [|[k v] m IH]; csimpl; [done|].
  intros [Hk Hnd]%NoDup_cons. rewrite decide_True by done. simpl. f_equal.
  rewrite (IH Hnd) at 1. apply Forall_fmap_ext_1, Forall_forall.
  intros k' Hk'. rewrite decide_False; [done|]. by intros ->.
Qed.

Lemma map_get_elem (k : string) (v : list string) (m : Clusters) :
  NoDup m.*1 → (k, v) ∈ m → map_get k m = Some v.
Proof.
  induction m as [|[k' v'] m IH]; csimpl.
  - by intros _ ?%elem_of_nil.
  - intros [Hk Hnd]%NoDup_cons [Heq|Hin]%elem_of_cons.
    + injection Heq as -> ->. by rewrite decide_True.
    + rewrite decide_False; [by apply IH|].
      intros ->. apply Hk, list_elem_of_fmap. by exists (k, v).
Qed.

(** X3. After [init] on a new engine, and after any [init] whose text
    arrived, the index is determined by the dictionary and its order: the
    keys are the signatures of the dictionary words in order of first
    occurrence, and the cluster of a key holds the dictionary words of that
    signature in dictionary order.  Looking up a signature that no
    dictionary word has gives nothing. *)
Theorem init_index_is_grouping (r : FetchOutcome) (e0 : WordEngine) :
  failed r = false ∨ clusters e0 = [] →
  let e := init r e0 in
  let members k := filter (λ w, signature w = k) (dictionary e) in
  clusters e = (λ k, (k, members k)) <$> unique (signature <$> dictionary e)
  ∧ ∀ k, map_get k (clusters e) = match members k with
                                  | [] => None
                                  | ws => Some ws
                                  end.
Proof.
  intros Hre e members.
  assert (Hform : clusters e = foldl add_word [] (dictionary e)).
  { unfold e. destruct r; unfold init; cbn [clusters dictionary];
      try (destruct Hre as [Hre|Hre]; [discriminate Hre | by rewrite Hre]).
    done. }
  assert (Hget : ∀ k, map_get k (clusters e) = match members k with
                                               | [] => None
                                               | ws => Some ws
                                               end).
  { intros k. rewrite Hform, map_get_fill. unfold members.
    by destruct (filter _ _). }
  split; [|done].
  assert (Hkeys : (clusters e).*1 = unique (signature <$> dictionary e))
    by (rewrite Hform; apply fill_keys).
  rewrite (map_entries_get (clusters e)) by (rewrite Hkeys; apply unique_NoDup).
  rewrite Hkeys. apply Forall_fmap_ext_1, Forall_forall.
  intros k Hk. rewrite Hget. f_equal. by destruct (members k).
Qed.

Lemma init_index_is_grouping_witness :
  clusters new_engine = []
  ∧ clusters (init FetchNotOk new_engine)
    = (λ k, (k, filter (λ w, signature w = k) fallback))
        <$> unique (signature <$> fallback)
  ∧ map_get "arst" (clusters (init FetchNotOk new_engine)) = Some ["star"; "rats"; "arts"]
  ∧ map_get "zzzz" (clusters (init FetchNotOk new_engine)) = None.
Proof.
  split; [reflexivity|].
  destruct (init_index_is_grouping FetchNotOk new_engine (or_intror eq_refl))
    as [Hform Hget].
  split; [exact Hform|].
  split; [rewrite Hget; vm_compute; reflexivity|].
  rewrite Hget. vm_compute. reflexivity.
Defined.

(** X4. After [init] on a new engine, two words of the dictionary are in
    the same cluster exactly when they are anagrams of each other. *)
Theorem cluster_is_anagram_class (r : FetchOutcome) (a b : string) :
  let e := init r new_engine in
  a ∈ dictionary e → b ∈ dictionary e →
  (anagrams a b ↔ ∃ k ws, (k, ws) ∈ clusters e ∧ a ∈ ws ∧ b ∈ ws).
Proof.
  intros e Ha Hb.
  destruct (init_partitions_from r new_engine) as (_ & _ & Hkeys & Hsig); [by right|].
  fold e in Hkeys, Hsig. split.
  - intros Hab%signature_eq_anagrams.
    destruct (init_files_dictionary r new_engine a Ha) as (wa & Hina & Hwa).
    destruct (init_files_dictionary r new_engine b Hb) as (wb & Hinb & Hwb).
    fold e in Hina, Hinb. rewrite <- Hab in Hinb.
    pose proof (map_get_elem _ _ _ Hkeys Hina) as Ga.
    pose proof (map_get_elem _ _ _ Hkeys Hinb) as Gb.
    rewrite Ga in Gb. injection Gb as <-.
    by exists (signature a), wa.
  - intros (k & ws & Hin & Hwa & Hwb). apply signature_eq_anagrams.
    by rewrite <- (Hsig k ws a Hin Hwa), <- (Hsig k ws b Hin Hwb).
Qed.

Lemma cluster_is_anagram_class_witness :
  "star" ∈ dictionary (init FetchRejected new_engine)
  ∧ "arts" ∈ dictionary (init FetchRejected new_engine)
  ∧ (anagrams "star" "arts" ↔
     ∃ k ws, (k, ws) ∈ clusters (init FetchRejected new_engine)
             ∧ "star" ∈ ws ∧ "arts" ∈ ws).
Proof.
  assert (Ha : "star" ∈ dictionary (init FetchRejected new_engine))
    by (apply (bool_decide_unpack _); vm_compute; exact I).
  assert (Hb : "arts" ∈ dictionary (init FetchRejected new_engine))
    by (apply (bool_decide_unpack _); vm_compute; exact I).
  split; [exact Ha|]. split; [exact Hb|].
  exact (cluster_is_anagram_class FetchRejected "star" "arts" Ha Hb).
Defined.

(** ** [isValidWord] *)

Lemma lower_upper_char (c : ascii) : lower_char (upper_char c) = lower_char c.
Proof. destruct c as [[] [] [] [] [] [] [] []]; reflexivity. Qed.

Lemma lower_lower_char (c : ascii) : lower_char (lower_char c) = lower_char c.
Proof. destruct c as [[] [] [] [] [] [] [] []]; reflexivity. Qed.

Lemma lower_char_fixes_lower (c : ascii) : is_lower c = true → lower_char c = c.
Proof. destruct c as [[] [] [] [] [] [] [] []]; (reflexivity || discriminate). Qed.

Lemma toLowerCase_toUpperCase (w : string) :
  toLowerCase (toUpperCase w) = toLowerCase w.
Proof.
  unfold toLowerCase. rewrite toUpperCase_chars. f_equal.
  change (map lower_char (map upper_char (split_chars w))
          = map lower_char (split_chars w)).
  rewrite map_map. apply map_ext. intros c. apply lower_upper_char.
Qed.

Lemma toLowerCase_idem (w : string) : toLowerCase (toLowerCase w) = toLowerCase w.
Proof.
  unfold toLowerCase. rewrite split_join. f_equal.
  rewrite map_map. apply map_ext. intros c. apply lower_lower_char.
Qed.

Lemma admissible_lower (w : string) : admissible w = true → toLowerCase w = w.
Proof.
  unfold admissible, isAlpha. rewrite !andb_true_iff. intros [[[_ Ha] _] _].
  assert (Hall : forallb is_lower (split_chars w) = true)
    by (destruct (split_chars w); [done | exact Ha]).
  unfold toLowerCase. rewrite <- (join_split w) at 2. f_equal.
  revert Hall. generalize (split_chars w). intros l.
  induction l as [|c l IH]; simpl; intros Hall; [done|].
  apply andb_true_iff in Hall as [Hc Hl].
  rewrite lower_char_fixes_lower by done. f_equal. by apply IH.
Qed.

Lemma init_dictionarySet (r : FetchOutcome) (e0 : WordEngine) :
  dictionarySet (init r e0) = list_to_set (dictionary (init r e0)).
Proof. by destruct r. Qed.

(** X5. After [init], [isValidWord] accepts a word exactly when its
    lower-case form is in the dictionary; the answer does not depend on the
    case of the ASCII letters of the word; every dictionary word is
    accepted.  A new engine accepts no word. *)
Theorem isValidWord_spec (r : FetchOutcome) (e0 : WordEngine) (word : string) :
  let e := init r e0 in
  (isValidWord e word = true ↔ toLowerCase word ∈ dictionary e)
  ∧ isValidWord e (toUpperCase word) = isValidWord e word
  ∧ isValidWord e (toLowerCase word) = isValidWord e word
  ∧ (word ∈ dictionary e → isValidWord e word = true)
  ∧ isValidWord new_engine word = false.
Proof.
  intros e.
  assert (Hspec : ∀ w, isValidWord e w = true ↔ toLowerCase w ∈ dictionary e).
  { intros w. unfold isValidWord, e. rewrite init_dictionarySet.
    rewrite bool_decide_eq_true. apply elem_of_list_to_set. }
  split_and!.
  - apply Hspec.
  - unfold isValidWord. by rewrite toLowerCase_toUpperCase.
  - unfold isValidWord. by rewrite toLowerCase_idem.
  - intros Hw. apply Hspec.
    by rewrite (admissible_lower word (init_dictionary_admissible r e0 word Hw)).
  - unfold isValidWord. apply bool_decide_eq_false. cbn. apply not_elem_of_empty.
Qed.

Lemma isValidWord_spec_witness :
  ("TRUST" ∉ dictionary (init FetchNotOk new_engine))
  ∧ isValidWord (init FetchNotOk new_engine) "TRUST" = true
  ∧ isValidWord (init FetchNotOk new_engine) "trusts" = false.
Proof.
  destruct (isValidWord_spec FetchNotOk new_engine "TRUST") as (H1 & _).
  destruct (isValidWord_spec FetchNotOk new_engine "trusts") as (H2 & _).
  split_and!.
  - apply (bool_decide_unpack _). vm_compute. exact I.
  - apply H1. apply (bool_decide_unpack _). vm_compute. exact I.
  - apply not_true_is_false. intros Hv.
    apply H2 in Hv. revert Hv. apply (bool_decide_unpack _). vm_compute. exact I.
Defined.

(** ** [isSubset] looks at letters only *)

Lemma counts_submseteq (l1 l2 : list ascii) :
  (∀ c, count_occ ascii_dec l1 c ≤ count_occ ascii_dec l2 c) ↔ l1 ⊆+ l2.
Proof.
  split.
  - revert l2; induction l1 as [|x l1 IH]; intros l2 H; [apply submseteq_nil_l|].
    assert (Hx : x ∈ l2).
    { apply list_elem_of_In, (count_occ_In ascii_dec). specialize (H x).
      simpl in H. destruct (ascii_dec x x); [lia | done]. }
    apply elem_of_Permutation in Hx as [k Hk].
    apply submseteq_cons_l. exists k. split; [done|]. apply IH. intros c.
    specialize (H c).
    rewrite (proj1 (Permutation_count_occ ascii_dec _ _) Hk c) in H.
    simpl in H. destruct (ascii_dec x c); lia.
  - intros [k Hk]%submseteq_Permutation c.
    rewrite (proj1 (Permutation_count_occ ascii_dec _ _) Hk c), count_occ_app. lia.
Qed.

Lemma isSubset_submseteq (a b : string) :
  isSubset a b = true ↔ split_chars a ⊆+ split_chars b.
Proof. rewrite isSubset_spec. apply counts_submseteq. Qed.

Lemma isSubset_anagrams (a a' b b' : string) :
  anagrams a a' → anagrams b b' → isSubset a b = isSubset a' b'.
Proof.
  unfold anagrams. intros Ha Hb. apply eq_true_iff_eq.
  by rewrite !isSubset_submseteq, Ha, Hb.
Qed.

Lemma isSubset_signature (a b : string) :
  isSubset (signature a) (signature b) = isSubset a b.
Proof. apply isSubset_anagrams; apply signature_perm. Qed.

(** X6. [isSubset] depends on the letters of its arguments and not on their
    order: it gives the same answer on two words as on their signatures.
    A string that passes is not longer than the one it is tested against;
    the empty string passes against everything and is alone in passing
    against the empty string; passing is transitive. *)
Theorem isSubset_letters_only (a b c : string) :
  isSubset (signature a) (signature b) = isSubset a b
  ∧ (isSubset a b = true → String.length a ≤ String.length b)
  ∧ isSubset EmptyString b = true
  ∧ (isSubset a EmptyString = true ↔ a = EmptyString)
  ∧ (isSubset a b = true → isSubset b c = true → isSubset a c = true)
  ∧ (isSubset a b = true → isSubset b a = true → signature a = signature b).
Proof.
  split_and!.
  - apply isSubset_signature.
  - rewrite isSubset_submseteq, <- !split_chars_length. apply submseteq_length.
  - reflexivity.
  - split; [|by intros ->]. rewrite isSubset_submseteq.
    intros H%submseteq_length. destruct a; [done | simpl in H; lia].
  - rewrite !isSubset_submseteq. intros H1 H2. by etrans.
  - rewrite !isSubset_submseteq. intros H1 H2.
    apply signature_eq_anagrams. unfold anagrams.
    by apply (anti_symm submseteq).
Qed.

(** ** The words of a level *)

Lemma init_pool_elem (r : FetchOutcome) (rng : Rng) (t : Z) (w : string) :
  let e := init r new_engine in
  w ∈ level_pool e rng t ↔
  w ∈ dictionary e ∧ isSubset (signature w) (signature (chooseRoot e rng t)) = true.
Proof.
  intros e.
  destruct (init_partitions_from r new_engine) as (Hperm & _ & _ & Hsig); [by right|].
  fold e in Hperm, Hsig. unfold level_pool. rewrite candidatePool_elem. split.
  - intros (k & ws & Hin & Hsub & Hw).
    rewrite <- (Hsig k ws w Hin Hw). split; [|done].
    rewrite <- Hperm. apply list_elem_of_In, in_concat.
    exists ws. split; [|by apply list_elem_of_In].
    apply list_elem_of_In, list_elem_of_fmap. by exists (k, ws).
  - intros [Hw Hsub].
    destruct (init_files_dictionary r new_engine w Hw) as (ws & Hin & Hws).
    by exists (signature w), ws.
Qed.

(** X7. After [init] on a new engine, every word of [validWords] is a
    dictionary word that [isValidWord] accepts, its letters are among the
    root letters with their multiplicities, and it has at least 4 characters
    and at most as many as the root. *)
Theorem validWords_are_spellable_dictionary_words
    (pow_score : Draw → nat → Q) (localeCompare : string → string → Z)
    (r : FetchOutcome) (rng : Rng) (t : Z) (w : string) :
  let e := init r new_engine in
  let lvl := generateLevel pow_score localeCompare e rng t in
  w ∈ validWords lvl →
  w ∈ dictionary e
  ∧ isValidWord e w = true
  ∧ isSubset w (rootLetters lvl) = true
  ∧ 4 ≤ String.length w ≤ String.length (rootLetters lvl).
Proof.
  intros e lvl Hw.
  assert (Hpool : w ∈ level_pool e rng t).
  { eapply elem_of_submseteq; [exact Hw | apply validWords_submseteq]. }
  apply init_pool_elem in Hpool as [Hd Hsub]. fold e in Hd, Hsub.
  assert (Hsub' : isSubset w (rootLetters lvl) = true).
  { change (rootLetters lvl) with (signature (chooseRoot e rng t)).
    rewrite <- Hsub. apply isSubset_anagrams; unfold anagrams; [|done].
    by rewrite signature_perm. }
  pose proof (init_dictionary_admissible r new_engine w Hd) as Hadm.
  split_and!; [done | | done | |].
  - unfold isValidWord, e. rewrite init_dictionarySet, (admissible_lower w Hadm).
    by apply bool_decide_eq_true, elem_of_list_to_set.
  - by apply admissible_spec in Hadm as [[? _] _].
  - apply isSubset_submseteq, submseteq_length in Hsub'.
    by rewrite !split_chars_length in Hsub'.
Qed.

Lemma validWords_are_spellable_dictionary_words_witness :
  let e := init FetchNotOk new_engine in
  let lvl := generateLevel flat_score code_unit_compare e zero_rng 6 in
  validWords lvl = ["rust"; "trust"]
  ∧ "rust" ∈ dictionary e
  ∧ isValidWord e "rust" = true
  ∧ isSubset "rust" (rootLetters lvl) = true
  ∧ 4 ≤ String.length "rust" ≤ String.length (rootLetters lvl).
Proof.
  intros e lvl.
  assert (Hv : validWords lvl = ["rust"; "trust"]) by (vm_compute; reflexivity).
  split; [exact Hv|].
  apply (validWords_are_spellable_dictionary_words flat_score code_unit_compare
           FetchNotOk zero_rng 6 "rust").
  fold e lvl. rewrite Hv. apply list_elem_of_here.
Defined.

Lemma init_has_five_letter_word (r : FetchOutcome) (e0 : WordEngine) :
  rootWords_of (init r e0) 5 ≠ [].
Proof.
  assert (H : ∃ w, w ∈ rootWords_of (init r e0) 5).
  { destruct r.
    1-3: exists "trust"; apply rootWords_of_elem; split; [done|];
      apply (bool_decide_unpack _); vm_compute; exact I.
    exists "quoth". apply rootWords_of_elem. split; [done|].
    cbn [init dictionary]. rewrite unique_elem, elem_of_app. right.
    apply (bool_decide_unpack _). vm_compute. exact I. }
  destruct H as [w Hw]. intros Hnil. rewrite Hnil in Hw. by apply elem_of_nil in Hw.
Qed.

(** X8. After any [init], the root of a level is a dictionary word of the
    target length or of 5 letters (the default "water" is out of use), the
    root is in the pool, so [validWords] is not empty, and when the pool has
    at most 12 words the root is one of [validWords]. *)
Theorem level_after_init_holds_its_root
    (pow_score : Draw → nat → Q) (localeCompare : string → string → Z)
    (r : FetchOutcome) (e0 : WordEngine) (rng : Rng) (t : Z) :
  let e := init r e0 in
  let lvl := generateLevel pow_score localeCompare e rng t in
  let root := chooseRoot e rng t in
  root ∈ dictionary e
  ∧ (Z.of_nat (String.length root) = t ∨ String.length root = 5)
  ∧ root ∈ level_pool e rng t
  ∧ validWords lvl ≠ []
  ∧ (length (level_pool e rng t) ≤ 12 → root ∈ validWords lvl).
Proof.
  intros e lvl root.
  pose proof (chooseRoot_cases e rng t (init_no_empty_word r e0)) as (Ht & H5 & _).
  pose proof (init_has_five_letter_word r e0) as Hfive. fold e in Hfive.
  assert (Hroot : root ∈ dictionary e
                  ∧ (Z.of_nat (String.length root) = t ∨ String.length root = 5)).
  { destruct (decide (rootWords_of e t = [])) as [Hnil|Hne].
    - pose proof (H5 Hnil Hfive) as Hin.
      apply rootWords_of_elem in Hin as [Hl Hd].
      split; [done|]. right. fold root in Hl. lia.
    - pose proof (Ht Hne) as Hin.
      apply rootWords_of_elem in Hin as [Hl Hd]. split; [done | by left]. }
  destruct Hroot as [Hd Hlen].
  destruct (init_files_dictionary r e0 root Hd) as (ws & Hin & Hws).
  assert (Hpool : root ∈ level_pool e rng t) by (by eapply root_in_pool).
  split_and!; [done | done | done | |].
  - apply validWords_nonempty. intros Hnil. rewrite Hnil in Hpool.
    by apply elem_of_nil in Hpool.
  - intros Hle. unfold lvl. rewrite validWords_unfold, sort_by_perm.
    by rewrite selectWords_small.
Qed.

(** ** The order of [validWords] *)

Lemma word_cmp_length (lc : string → string → Z) (a b : string) :
  ((word_cmp lc a b ≤ 0)%Z → String.length a ≤ String.length b)
  ∧ ((0 < word_cmp lc a b)%Z → String.length b ≤ String.length a).
Proof. unfold word_cmp. case_decide; lia. Qed.

(** X9. [validWords] is in ascending order of length, whatever
    [localeCompare] answers. *)
Theorem validWords_sorted_by_length
    (pow_score : Draw → nat → Q) (localeCompare : string → string → Z)
    (e : WordEngine) (rng : Rng) (t : Z) :
  StronglySorted (λ a b, String.length a ≤ String.length b)
                 (validWords (generateLevel pow_score localeCompare e rng t)).
Proof.
  rewrite validWords_unfold. apply sort_by_sorted.
  - intros a b. apply word_cmp_length.
  - intros a b. apply word_cmp_length.
  - intros a b c. lia.
Qed.

Lemma word_cmp_consistent (lc : string → string → Z) :
  consistent lc → consistent (word_cmp lc).
Proof.
  intros [Htot Htr]. split.
  - intros a b. unfold word_cmp. repeat case_decide; try lia. apply Htot.
  - intros a b c. unfold word_cmp. repeat case_decide; try lia. apply Htr.
Qed.

Lemma char_cmp_sign (x y : ascii) :
  x ≠ y → (char_cmp x y < 0 ∧ 0 < char_cmp y x)%Z ∨ (0 < char_cmp x y ∧ char_cmp y x < 0)%Z.
Proof.
  intros Hne. assert (code x ≠ code y) by (intros H; by apply Hne, code_inj).
  unfold char_cmp. lia.
Qed.

Lemma code_unit_compare_consistent : consistent code_unit_compare.
Proof.
  split.
  - intros a. induction a as [|x a IH]; intros [|y b]; simpl; try lia.
    destruct (decide (x = y)) as [->|Hne].
    + rewrite decide_True by done. apply IH.
    + rewrite decide_False by done. destruct (char_cmp_sign x y Hne); lia.
  - intros a. induction a as [|x a IH]; intros [|y b] [|z c]; simpl; try lia.
    destruct (decide (x = y)) as [->|Hxy]; destruct (decide (y = z)) as [->|Hyz].
    + apply IH.
    + lia.
    + rewrite decide_False by done. lia.
    + unfold char_cmp. intros H1 H2.
      assert (code x ≠ code y) by (intros Hc; by apply Hxy, code_inj).
      assert (code y ≠ code z) by (intros Hc; by apply Hyz, code_inj).
      destruct (decide (x = z)) as [->|Hxz]; lia.
Qed.

(** X10. When [localeCompare] is a consistent comparator, [validWords] is
    sorted by the comparator of the source: by length first, by
    [localeCompare] among words of one length. *)
Theorem validWords_sorted
    (pow_score : Draw → nat → Q) (localeCompare : string → string → Z)
    (e : WordEngine) (rng : Rng) (t : Z) :
  consistent localeCompare →
  StronglySorted (before (word_cmp localeCompare))
                 (validWords (generateLevel pow_score localeCompare e rng t)).
Proof.
  intros [Htot Htr]%word_cmp_consistent.
  rewrite validWords_unfold. apply sort_by_sorted; unfold before.
  - done.
  - apply Htot.
  - intros a b c. apply Htr.
Qed.

Lemma validWords_sorted_witness :
  consistent code_unit_compare
  ∧ validWords (generateLevel flat_score code_unit_compare small_engine zero_rng 5)
    = ["rain"; "rant"; "train"]
  ∧ StronglySorted (before (word_cmp code_unit_compare))
      (validWords (generateLevel flat_score code_unit_compare small_engine zero_rng 5)).
Proof.
  split; [exact code_unit_compare_consistent|].
  split; [vm_compute; reflexivity|].
  apply (validWords_sorted flat_score code_unit_compare small_engine zero_rng 5).
  exact code_unit_compare_consistent.
Defined.

(** ** The trimmed selection *)

Lemma score_cmp_le (a b : string * Q) : (score_cmp a b ≤ 0)%Z ↔ (b.2 <= a.2)%Q.
Proof.
  unfold score_cmp. destruct a as [wa [na da]], b as [wb [nb db]]. simpl.
  unfold Qle. simpl. destruct (Z.sgn_spec (nb * Z.pos da + - na * Z.pos db))
    as [[? ->]|[[? ->]|[? ->]]]; lia.
Qed.

(** X11. When the pool has more than 12 words, [selectWords] returns the 12
    first words of the pool sorted by descending score: no word that is left
    out has a higher score than a word that is kept. *)
Theorem selectWords_keeps_best_scores
    (pow_score : Draw → nat → Q) (rng : Rng) (pool : list string) :
  12 < length pool →
  let scored := imap (λ i word, (word, pow_score (rng i) (String.length word))) pool in
  let ranked := sort_by score_cmp scored in
  ranked ≡ₚ scored
  ∧ selectWords pow_score rng pool = (take 12 ranked).*1
  ∧ ∀ kept left, kept ∈ take 12 ranked → left ∈ drop 12 ranked →
                 (left.2 <= kept.2)%Q.
Proof.
  intros Hlen scored ranked. split_and!.
  - apply sort_by_perm.
  - unfold selectWords. rewrite decide_False by (unfold maxWords; lia). done.
  - intros kept left Hk Hl.
    apply (StronglySorted_app_1_elem_of (λ a b : string * Q, (b.2 <= a.2)%Q)
             (take 12 ranked) (drop 12 ranked)); [|done|done].
    rewrite take_drop. apply sort_by_sorted.
    + intros a b. apply score_cmp_le.
    + intros a b H. apply Qlt_le_weak, Qnot_le_lt. rewrite <- score_cmp_le. lia.
    + intros a b c H1 H2. by eapply Qle_trans.
Qed.

Lemma selectWords_keeps_best_scores_witness :
  let pool := level_pool (init (FetchText strain_text) new_engine) cycle_rng 6 in
  12 < length pool
  ∧ selectWords flat_score (skip 1 cycle_rng) pool
    = (take 12 (sort_by score_cmp
         (imap (λ i word, (word, flat_score (skip 1 cycle_rng i) (String.length word)))
               pool))).*1.
Proof.
  intros pool.
  assert (Hlen : 12 < length pool) by (vm_compute; lia).
  split; [exact Hlen|].
  by destruct (selectWords_keeps_best_scores flat_score (skip 1 cycle_rng) pool Hlen)
    as (_ & Heq & _).
Defined.

(** ** The merge of the fetched words with the supplement *)

Lemma set_add_from (seen words : list string) :
  foldl set_add seen words
  = seen ++ filter (λ x, x ∉ seen) (foldl set_add [] words).
Proof.
  induction words as [|w words IH] using rev_ind; simpl.
  - by rewrite List.app_nil_r.
  - rewrite !foldl_snoc, IH. unfold set_add at 1 3.
    pose proof (unique_elem words w) as Hu. unfold unique in Hu.
    destruct (decide (w ∈ foldl set_add [] words)) as [Hw|Hw].
    + rewrite (bool_decide_eq_true_2 (w ∈ foldl set_add [] words)) by done.
      destruct (decide (w ∈ seen)) as [Hs|Hs].
      * rewrite bool_decide_eq_true_2; [done|]. apply elem_of_app. by left.
      * rewrite bool_decide_eq_true_2; [done|]. apply elem_of_app. right.
        by apply list_elem_of_filter.
    + rewrite (bool_decide_eq_false_2 (w ∈ foldl set_add [] words)) by done.
      rewrite filter_app, filter_cons, filter_nil.
      destruct (decide (w ∈ seen)) as [Hs|Hs].
      * rewrite decide_False by (by intros ?). rewrite List.app_nil_r.
        rewrite bool_decide_eq_true_2; [done|]. apply elem_of_app. by left.
      * rewrite decide_True by done.
        rewrite bool_decide_eq_false_2; [by rewrite (assoc_L (++))|].
        rewrite elem_of_app, list_elem_of_filter. tauto.
Qed.

Lemma unique_of_NoDup (l : list string) : NoDup l → unique l = l.
Proof.
  induction l as [|x l IH] using rev_ind; [done|].
  intros [Hl [Hx _]]%NoDup_app. unfold unique in *. rewrite foldl_snoc, (IH Hl).
  unfold set_add. rewrite bool_decide_eq_false_2; [done|].
  intros Hin. apply (Hx x Hin). apply list_elem_of_here.
Qed.

(** X12. [[...new Set(l)]] keeps the first occurrence of every element, in
    order: the result has no repetition and the elements of [l]; on two
    lists in a row it is the result on the first followed by what the result
    on the second adds to it; a list without repetition is left as it is.
    So the dictionary of a text that arrived starts with the fetched words
    and ends with the words of the supplement that were not fetched. *)
Theorem unique_keeps_first_occurrences (l1 l2 : list string) :
  NoDup (unique l1)
  ∧ (∀ x, x ∈ unique l1 ↔ x ∈ l1)
  ∧ unique (l1 ++ l2) = unique l1 ++ filter (λ x, x ∉ l1) (unique l2)
  ∧ (NoDup l1 → unique l1 = l1)
  ∧ ∀ text e,
      dictionary (init (FetchText text) e)
      = unique (fetchedWords text)
          ++ filter (λ x, x ∉ fetchedWords text) PRIORITY_WORDS.
Proof.
  assert (Happ : ∀ k1 k2, unique (k1 ++ k2)
                          = unique k1 ++ filter (λ x, x ∉ k1) (unique k2)).
  { intros k1 k2. unfold unique. rewrite foldl_app, set_add_from.
    apply (f_equal (app _)), list_filter_iff.
    intros x. fold (unique k1). by rewrite unique_elem. }
  split_and!.
  - apply unique_NoDup.
  - apply unique_elem.
  - apply Happ.
  - apply unique_of_NoDup.
  - intros text e. cbn [init dictionary]. rewrite Happ.
    by rewrite (unique_of_NoDup PRIORITY_WORDS)
      by (apply (bool_decide_unpack _); vm_compute; exact I).
Qed.

(** ** A failed [init] on a loaded engine *)

Lemma add_word_words (m : Clusters) (w : string) :
  concat (add_word m w).*2 ≡ₚ concat m.*2 ++ [w].
Proof.
  rewrite add_word_unfold, map_push_words by apply with_key_has.
  rewrite <- Permutation_cons_append. f_equiv.
  destruct (with_key_cases (signature w) m) as [[_ ->]|[_ ->]]; [done|].
  rewrite fmap_app, concat_app. csimpl. by rewrite List.app_nil_r.
Qed.

Lemma fill_words (words : list string) (m : Clusters) :
  concat (foldl add_word m words).*2 ≡ₚ concat m.*2 ++ words.
Proof.
  revert m; induction words as [|w words IH]; intros m; simpl.
  - by rewrite List.app_nil_r.
  - rewrite IH, add_word_words, <- (assoc_L (++)). done.
Qed.

(** X13. The [catch] block of [init] does not clear the index: after a
    failed fetch the clusters hold the words they held before together with
    the fallback words, while the dictionary is the fallback list alone.  A
    word of the old index that is not a fallback word stays in the index
    and [isValidWord] rejects it. *)
Theorem failed_init_adds_to_index (r : FetchOutcome) (e0 : WordEngine) :
  failed r = true →
  let e := init r e0 in
  dictionary e = fallback
  ∧ concat (clusters e).*2 ≡ₚ concat (clusters e0).*2 ++ fallback
  ∧ ∀ w, w ∈ concat (clusters e0).*2 → toLowerCase w ∉ fallback →
         w ∈ concat (clusters e).*2 ∧ isValidWord e w = false.
Proof.
  intros Hr e.
  assert (Hc : concat (clusters e).*2 ≡ₚ concat (clusters e0).*2 ++ fallback).
  { unfold e. destruct r; try discriminate Hr;
      unfold init; cbn [clusters]; apply fill_words. }
  split_and!; [by apply init_failed_dictionary | done |].
  intros w Hw Hlow. split.
  - rewrite Hc. apply elem_of_app. by left.
  - unfold isValidWord, e. rewrite init_dictionarySet, init_failed_dictionary by done.
    apply bool_decide_eq_false. by rewrite elem_of_list_to_set.
Qed.

Lemma failed_init_adds_to_index_witness :
  let e0 := init (FetchText "strain") new_engine in
  let e := init FetchRejected e0 in
  failed FetchRejected = true
  ∧ isValidWord e0 "strain" = true
  ∧ "strain" ∈ concat (clusters e).*2
  ∧ isValidWord e "strain" = false.
Proof.
  intros e0 e.
  destruct (failed_init_adds_to_index FetchRejected e0 eq_refl) as (_ & _ & Hold).
  destruct (Hold "strain") as [Hin Hv].
  - apply (bool_decide_unpack _). vm_compute. exact I.
  - apply (bool_decide_unpack _). vm_compute. exact I.
  - split_and!; [reflexivity | vm_compute; reflexivity | exact Hin | exact Hv].
Defined.

(** * Properties of the game shell *)

(** ** [isPossibleWithLetters] *)

Lemma spend_consume (counts : gmap ascii nat) (word : list ascii) :
  spend counts word = consume counts word.
Proof.
  revert counts; induction word as [|c word IH]; intros counts; simpl; [done|].
  destruct (counts !! c) as [[|n]|]; [done | | done].
  rewrite decide_False by done. simpl. rewrite Nat.sub_0_r. apply IH.
Qed.

Lemma isPossibleWithLetters_isSubset (word rootLetters : string) :
  isPossibleWithLetters word rootLetters = isSubset word rootLetters.
Proof. apply spend_consume. Qed.

(** X14. The shell's [isPossibleWithLetters] answers as the engine's
    [isSubset] does on every pair of strings: a word is possible exactly
    when each of its characters occurs in the root letters at least as
    often as in the word. *)
Theorem isPossibleWithLetters_spec (word rootLetters : string) :
  isPossibleWithLetters word rootLetters = isSubset word rootLetters
  ∧ (isPossibleWithLetters word rootLetters = true ↔
     ∀ c, occ c word ≤ occ c rootLetters).
Proof.
  split; [apply isPossibleWithLetters_isSubset|].
  rewrite isPossibleWithLetters_isSubset. apply isSubset_spec.
Qed.

(** ** [handleWordComplete] *)

(** X15. A guess never loses progress: the level stays the same level, the
    found words and the score can only grow, and the hints are untouched. *)
Theorem handleWordComplete_keeps_progress
    (e : WordEngine) (word : string) (st : AppState) (lvl : LevelData) :
  level st = Some lvl →
  ∃ lvl', level (handleWordComplete e word st) = Some lvl'
    ∧ rootLetters lvl' = rootLetters lvl
    ∧ displayLetters lvl' = displayLetters lvl
    ∧ validWords lvl' = validWords lvl
    ∧ foundWords lvl ⊆ foundWords lvl'
    ∧ (score st ≤ score (handleWordComplete e word st))%Z
    ∧ revealedIndices (handleWordComplete e word st) = revealedIndices st.
Proof.
  intros Hl. unfold handleWordComplete. rewrite Hl.
  repeat case_match; simpl;
    first [ exists lvl; by rewrite ?Hl
          | eexists; split_and!; try reflexivity; [set_solver | lia] ].
Qed.

Lemma handleWordComplete_keeps_progress_witness :
  let st := loadNewLevel flat_score code_unit_compare fallback_engine zero_rng 6
              initial_state in
  ∃ lvl, level st = Some lvl
    ∧ ∃ lvl', level (handleWordComplete fallback_engine "rust" st) = Some lvl'
        ∧ validWords lvl' = validWords lvl
        ∧ foundWords lvl ⊆ foundWords lvl'
        ∧ (score st ≤ score (handleWordComplete fallback_engine "rust" st))%Z.
Proof.
  intros st. eexists. split; [reflexivity|].
  destruct (handleWordComplete_keeps_progress fallback_engine "rust" st _ eq_refl)
    as (lvl' & H1 & _ & _ & H2 & H3 & H4 & _).
  exists lvl'. split_and!; done.
Defined.

Lemma found_all_iff_size (valid : list string) (found : gset string) :
  NoDup valid → (∀ w, w ∈ found → w ∈ valid) →
  (size found = length valid ↔ ∀ w, w ∈ valid → w ∈ found).
Proof.
  intros Hnd Hsub.
  assert (Hsize : size (list_to_set valid : gset string) = length valid)
    by by apply size_list_to_set.
  assert (Hincl : found ⊆ list_to_set valid).
  { intros w Hw. apply elem_of_list_to_set. by apply Hsub. }
  split.
  - intros Heq w Hw.
    assert (found = list_to_set valid) as ->
      by (apply set_subseteq_size_eq; [done | lia]).
    by apply elem_of_list_to_set.
  - intros Hall.
    assert (found = list_to_set valid) as ->; [|done].
    apply set_eq. intros w. rewrite elem_of_list_to_set. split; [apply Hsub | apply Hall].
Qed.

(** X16. A new correct guess of at least 4 letters is added to the found
    words and pays 10 points a letter; when the level repeats no word, the
    guess ends the level exactly when it was the last word missing. *)
Theorem correct_guess_completes_level
    (e : WordEngine) (word : string) (st : AppState) (lvl : LevelData) :
  level st = Some lvl →
  NoDup (validWords lvl) →
  (∀ w, w ∈ foundWords lvl → w ∈ validWords lvl) →
  4 ≤ String.length word → word ∈ validWords lvl → word ∉ foundWords lvl →
  let st' := handleWordComplete e word st in
  level st' = Some (with_foundWords lvl (foundWords lvl ∪ {[word]}))
  ∧ score st' = (score st + Z.of_nat (String.length word) * 10)%Z
  ∧ message st' = "Great!"
  ∧ (gameState st' = LEVEL_COMPLETE ↔
     gameState st = LEVEL_COMPLETE
     ∨ ∀ w, w ∈ validWords lvl → w = word ∨ w ∈ foundWords lvl).
Proof.
  intros Hl Hnd Hsub Hlen Hv Hf st'. unfold st', handleWordComplete. rewrite Hl.
  rewrite (proj2 (Nat.ltb_ge _ _) Hlen).
  rewrite bool_decide_eq_false_2 by done. rewrite bool_decide_eq_true_2 by done.
  assert (Hsub' : ∀ w, w ∈ foundWords lvl ∪ {[word]} → w ∈ validWords lvl).
  { intros w [Hw| ->%elem_of_singleton]%elem_of_union; [by apply Hsub | done]. }
  pose proof (found_all_iff_size (validWords lvl) (foundWords lvl ∪ {[word]}) Hnd Hsub')
    as Hsize.
  assert (Hall : (∀ w, w ∈ validWords lvl → w ∈ foundWords lvl ∪ {[word]})
                 ↔ ∀ w, w ∈ validWords lvl → w = word ∨ w ∈ foundWords lvl).
  { split; intros H w Hw; specialize (H w Hw).
    - apply elem_of_union in H as [H|H%elem_of_singleton]; [by right | by left].
    - apply elem_of_union. destruct H as [->|H]; [right; by apply elem_of_singleton | by left]. }
  case_decide as Hs; simpl; (split_and!; [done | done | done |]).
  - split; [|done]. intros _. right. by apply Hall, Hsize.
  - split; [by left|]. intros [Hg|Hw]; [done|]. exfalso. by apply Hs, Hsize, Hall.
Qed.

Lemma correct_guess_completes_level_witness :
  let st := loadNewLevel flat_score code_unit_compare fallback_engine zero_rng 4
              initial_state in
  let st' := handleWordComplete fallback_engine "rust" st in
  (∃ lvl, level st = Some lvl ∧ validWords lvl = ["rust"] ∧ foundWords lvl = ∅)
  ∧ score st' = (score st + Z.of_nat (String.length "rust") * 10)%Z
  ∧ message st' = "Great!"
  ∧ gameState st' = LEVEL_COMPLETE.
Proof.
  intros st st'.
  pose (lvl := generateLevel flat_score code_unit_compare fallback_engine zero_rng 4).
  assert (Hv : validWords lvl = ["rust"]) by (vm_compute; reflexivity).
  assert (Hl : level st = Some lvl) by reflexivity.
  assert (Hf : foundWords lvl = ∅) by reflexivity.
  assert (Hnd : NoDup (validWords lvl)) by (rewrite Hv; apply NoDup_singleton).
  assert (Hsub : ∀ w, w ∈ foundWords lvl → w ∈ validWords lvl).
  { intros w Hw. rewrite Hf in Hw.
    destruct (not_elem_of_empty (C := gset string) w Hw). }
  assert (Hlen : 4 ≤ String.length "rust") by (simpl; lia).
  assert (Hin : "rust" ∈ validWords lvl) by (rewrite Hv; apply list_elem_of_here).
  assert (Hnew : "rust" ∉ foundWords lvl)
    by (rewrite Hf; exact (not_elem_of_empty (C := gset string) "rust")).
  pose proof (correct_guess_completes_level fallback_engine "rust" st lvl
                Hl Hnd Hsub Hlen Hin Hnew) as (_ & Hs & Hm & Hg).
  split; [exists lvl; split; [exact Hl|]; split; [exact Hv | exact Hf]|].
  split; [exact Hs|]. split; [exact Hm|].
  apply Hg. right. intros w Hw. left.
  rewrite Hv in Hw. by apply list_elem_of_singleton in Hw.
Defined.

Lemma lower_chars_toLowerCase (w : string) :
  Forall (λ c, is_lower c = true) (split_chars w) → toLowerCase w = w.
Proof.
  intros Hall. unfold toLowerCase. rewrite <- (join_split w) at 2. f_equal.
  induction Hall as [|c l Hc Hl IH]; simpl; [done|].
  by rewrite (lower_char_fixes_lower c Hc), IH.
Qed.

Lemma admissible_lower_chars (w : string) :
  admissible w = true → Forall (λ c, is_lower c = true) (split_chars w).
Proof.
  unfold admissible, isAlpha. rewrite !andb_true_iff. intros [[[_ Ha] _] _].
  assert (Hall : forallb is_lower (split_chars w) = true)
    by (destruct (split_chars w); [done | exact Ha]).
  apply Forall_forall. intros c Hc. rewrite forallb_forall in Hall.
  by apply Hall, list_elem_of_In.
Qed.

Lemma init_root_in_dictionary (r : FetchOutcome) (e0 : WordEngine) (rng : Rng) (t : Z) :
  chooseRoot (init r e0) rng t ∈ dictionary (init r e0).
Proof.
  pose proof (chooseRoot_cases (init r e0) rng t (init_no_empty_word r e0))
    as (Ht & H5 & _).
  pose proof (init_has_five_letter_word r e0) as Hfive.
  destruct (decide (rootWords_of (init r e0) t = [])) as [Hnil|Hne].
  - pose proof (H5 Hnil Hfive) as Hin. by apply rootWords_of_elem in Hin as [_ ?].
  - pose proof (Ht Hne) as Hin. by apply rootWords_of_elem in Hin as [_ ?].
Qed.

(** A word that the shell finds both English and possible is in the pool. *)
Lemma english_possible_in_pool
    (r : FetchOutcome) (rng : Rng) (t : Z) (word : string) :
  let e := init r new_engine in
  isValidWord e word = true →
  isPossibleWithLetters word (signature (chooseRoot e rng t)) = true →
  word ∈ level_pool e rng t.
Proof.
  intros e Heng Hposs.
  rewrite isPossibleWithLetters_isSubset in Hposs.
  pose proof (init_root_in_dictionary r new_engine rng t) as Hroot. fold e in Hroot.
  pose proof (admissible_lower_chars _ (init_dictionary_admissible _ _ _ Hroot)) as Hlow.
  assert (Hsub : split_chars word ⊆+ split_chars (chooseRoot e rng t)).
  { apply isSubset_submseteq in Hposs. by rewrite signature_perm in Hposs. }
  assert (Hword : toLowerCase word = word).
  { apply lower_chars_toLowerCase, Forall_forall. intros c Hc.
    rewrite Forall_forall in Hlow. apply Hlow.
    eapply elem_of_submseteq; [exact Hc | exact Hsub]. }
  apply init_pool_elem. fold e. split.
  - unfold isValidWord, e in Heng. rewrite init_dictionarySet, Hword in Heng.
    by apply bool_decide_eq_true, elem_of_list_to_set in Heng.
  - rewrite <- Hposs. apply isSubset_anagrams; unfold anagrams; [|done].
    apply signature_perm.
Qed.

(** X17. When the pool of a level was not trimmed (at most 12 words), a
    word that [isValidWord] accepts and that [isPossibleWithLetters] finds
    possible with the root letters is one of [validWords]; so a guess on
    such a level is never answered "Valid, but not in this puzzle!". *)
Theorem untrimmed_level_has_every_possible_word
    (pow_score : Draw → nat → Q) (localeCompare : string → string → Z)
    (r : FetchOutcome) (rng : Rng) (t : Z)
    (found : gset string) (word : string) (st : AppState) :
  let e := init r new_engine in
  let lvl := generateLevel pow_score localeCompare e rng t in
  length (level_pool e rng t) ≤ 12 →
  level st = Some (with_foundWords lvl found) →
  message st ≠ "Valid, but not in this puzzle!" →
  (isValidWord e word = true →
   isPossibleWithLetters word (rootLetters lvl) = true →
   word ∈ validWords lvl)
  ∧ message (handleWordComplete e word st) ≠ "Valid, but not in this puzzle!".
Proof.
  intros e lvl Hpool Hl Hmsg.
  assert (Hcore : isValidWord e word = true →
                  isPossibleWithLetters word (rootLetters lvl) = true →
                  word ∈ validWords lvl).
  { intros Heng Hposs. unfold lvl. rewrite validWords_unfold, sort_by_perm.
    rewrite selectWords_small by done.
    by apply english_possible_in_pool. }
  split; [exact Hcore|].
  unfold handleWordComplete. rewrite Hl. cbn [validWords foundWords rootLetters with_foundWords].
  destruct (String.length word <? 4).
  { destruct (0 <? String.length word); [discriminate | exact Hmsg]. }
  destruct (bool_decide (word ∈ found)); [discriminate|].
  destruct (bool_decide (word ∈ validWords lvl)) eqn:Hv.
  { destruct (decide (size _ = _)); cbn; discriminate. }
  apply bool_decide_eq_false in Hv.
  destruct (isValidWord e word) eqn:Heng;
    destruct (isPossibleWithLetters word (rootLetters lvl)) eqn:Hposs;
    simpl; try discriminate.
  exfalso. by apply Hv, Hcore.
Qed.

Lemma untrimmed_level_has_every_possible_word_witness :
  let e := init FetchNotOk new_engine in
  let lvl := generateLevel flat_score code_unit_compare e zero_rng 6 in
  let st := setLevel (Some (with_foundWords lvl ∅)) initial_state in
  length (level_pool e zero_rng 6) ≤ 12
  ∧ message st ≠ "Valid, but not in this puzzle!"
  ∧ message (handleWordComplete e "star" st) ≠ "Valid, but not in this puzzle!".
Proof.
  intros e lvl st.
  assert (Hpool : length (level_pool e zero_rng 6) ≤ 12) by (vm_compute; lia).
  assert (Hl : level st = Some (with_foundWords lvl ∅)) by reflexivity.
  assert (Hmsg : message st ≠ "Valid, but not in this puzzle!") by discriminate.
  split; [exact Hpool|]. split; [exact Hmsg|].
  exact (proj2 (untrimmed_level_has_every_possible_word flat_score code_unit_compare
                  FetchNotOk zero_rng 6 ∅ "star" st Hpool Hl Hmsg)).
Defined.

(** ** [nextLevel] *)

(** X18. The target length that [nextLevel] asks for is 5, 6 or 7 whatever
    the level and the draw; when the root of the current level has 5 to 7
    letters the target is that length or one more, and 7 stays 7. *)
Theorem nextLen_bounds (rng : Rng) (st : AppState) :
  (5 ≤ nextLen rng st ≤ 7)%Z
  ∧ (level st = None → 5 ≤ nextLen rng st ≤ 6)%Z
  ∧ ∀ lvl, level st = Some lvl →
           5 ≤ String.length (rootLetters lvl) ≤ 7 →
           (Z.of_nat (String.length (rootLetters lvl)) ≤ nextLen rng st
            ≤ Z.min 7 (Z.of_nat (String.length (rootLetters lvl)) + 1))%Z.
Proof.
  unfold nextLen. destruct (level st) as [lvl0|].
  - split; [|split].
    + destruct (above_six_tenths (rng 0)); case_decide; lia.
    + discriminate.
    + intros lvl [= <-] Hlen. rewrite decide_False by lia.
      destruct (above_six_tenths (rng 0)); lia.
  - split; [|split].
    + destruct (above_six_tenths (rng 0)); simpl; lia.
    + intros _. destruct (above_six_tenths (rng 0)); simpl; lia.
    + discriminate.
Qed.

(** ** [handleHelp] *)

Lemma pick_some {A} (u : Draw) (l : list A) :
  0 < length l → ∃ x, l !! floor_mul u (length l) = Some x ∧ x ∈ l.
Proof.
  intros Hl. pose proof (floor_mul_lt u (length l) Hl) as Hlt.
  destruct (lookup_lt_is_Some_2 l _ Hlt) as [x Hx].
  exists x. split; [done | by eapply list_elem_of_lookup_2].
Qed.

Lemma elem_length_pos {A} (x : A) (l : list A) : x ∈ l → 0 < length l.
Proof. destruct l; [by intros ?%elem_of_nil | simpl; lia]. Qed.

(** A list shorter than [n] misses a position below [n]. *)
Lemma hidden_positions_exist (revealed : list nat) (n : nat) :
  length revealed < n → 0 < length (filter (λ i, i ∉ revealed) (seq 0 n)).
Proof.
  intros Hlen. destruct (filter (λ i, i ∉ revealed) (seq 0 n)) as [|i l] eqn:Hf;
    [|simpl; lia].
  exfalso. assert (Hsub : seq 0 n ⊆+ revealed).
  { apply NoDup_submseteq; [apply NoDup_seq|]. intros i Hi.
    destruct (decide (i ∈ revealed)) as [|Hn]; [done|].
    assert (Hin : i ∈ filter (λ i, i ∉ revealed) (seq 0 n))
      by (by apply list_elem_of_filter).
    rewrite Hf in Hin. by apply elem_of_nil in Hin. }
  apply submseteq_length in Hsub. rewrite length_seq in Hsub. lia.
Qed.

(** What a call of [handleHelp] does. *)
Lemma handleHelp_outcome
    (rng : Rng) (st : AppState) (lvl : LevelData) :
  level st = Some lvl →
  let available w :=
    w ∈ validWords lvl ∧ (w ∉ foundWords lvl)
    ∧ length (revealed_of st w) < String.length w in
  (gameState st = PLAYING → (∃ w, available w) →
   ∃ w i, available w ∧ i < String.length w ∧ (i ∉ revealed_of st w)
     ∧ handleHelp rng st
       = setScore (Z.max 0 (score st - 20))
           (setRevealedIndices
              (<[w := revealed_of st w ++ [i]]> (revealedIndices st)) st))
  ∧ (gameState st ≠ PLAYING ∨ (∀ w, ¬ available w) → handleHelp rng st = st).
Proof.
  intros Hl available. unfold handleHelp. rewrite Hl.
  set (unfound := filter (λ w, w ∉ foundWords lvl) (validWords lvl)).
  set (avail := filter (λ word, length (revealed_of st word) < String.length word) unfound).
  assert (Havail : ∀ w, w ∈ avail ↔ available w).
  { intros w. unfold avail, unfound, available.
    rewrite !list_elem_of_filter. tauto. }
  split.
  - intros Hg [w0 Hw0]. rewrite decide_False by (by intros ?).
    apply Havail in Hw0.
    assert (Hne : 0 < length avail) by (by eapply elem_length_pos).
    assert (Hun : 0 < length unfound).
    { apply (elem_length_pos w0). unfold avail in Hw0.
      by apply list_elem_of_filter in Hw0 as [_ ?]. }
    rewrite decide_False by lia. rewrite decide_False by lia.
    destruct (pick_some (rng 0) avail Hne) as (w & -> & Hw).
    apply Havail in Hw. destruct Hw as (Hv & Hf & Hlen).
    pose proof (hidden_positions_exist _ _ Hlen) as Hhid.
    rewrite decide_True by done.
    destruct (pick_some (rng 1) _ Hhid) as (i & -> & Hi).
    apply list_elem_of_filter in Hi as [Hi Hseq].
    apply elem_of_seq in Hseq.
    exists w, i. split; [by unfold available|].
    split; [lia|]. split; [done|]. reflexivity.
  - intros [Hg|Hnone].
    + by rewrite decide_True.
    + destruct (decide (gameState st ≠ PLAYING)); [done|].
      destruct (decide (length unfound = 0)); [done|].
      rewrite decide_True; [done|].
      destruct (decide (length avail = 0)) as [|Hpos]; [done|]. exfalso.
      destruct (pick_some (rng 0) avail) as (w & _ & Hw); [lia|].
      by apply (Hnone w), Havail.
Qed.

(** X19. While a level is being played, a hint is given whenever some word
    that is not found yet has a position that is not revealed yet: one such
    word gets one new position of its own revealed, and the score goes down
    by 20 without going below zero.  Otherwise, and outside play, the state
    does not change. *)
Theorem handleHelp_reveals_one_position
    (rng : Rng) (st : AppState) (lvl : LevelData) :
  level st = Some lvl →
  let available w :=
    w ∈ validWords lvl ∧ (w ∉ foundWords lvl)
    ∧ length (revealed_of st w) < String.length w in
  (gameState st = PLAYING → (∃ w, available w) →
   ∃ w i, available w ∧ i < String.length w ∧ (i ∉ revealed_of st w)
     ∧ handleHelp rng st
       = setScore (Z.max 0 (score st - 20))
           (setRevealedIndices
              (<[w := revealed_of st w ++ [i]]> (revealedIndices st)) st))
  ∧ (gameState st ≠ PLAYING ∨ (∀ w, ¬ available w) → handleHelp rng st = st).
Proof. apply handleHelp_outcome. Qed.

Lemma handleHelp_reveals_one_position_witness :
  let lvl := {| rootLetters := "rstu"; displayLetters := split_chars "RUST";
                validWords := ["rust"]; foundWords := ∅ |} in
  let st := setGameState PLAYING (setLevel (Some lvl) initial_state) in
  gameState st = PLAYING
  ∧ ("rust" ∈ validWords lvl ∧ ("rust" ∉ foundWords lvl)
     ∧ length (revealed_of st "rust") < String.length "rust")
  ∧ ∃ w i, i < String.length w ∧ (i ∉ revealed_of st w)
      ∧ handleHelp zero_rng st
        = setScore (Z.max 0 (score st - 20))
            (setRevealedIndices
               (<[w := revealed_of st w ++ [i]]> (revealedIndices st)) st).
Proof.
  intros lvl st.
  assert (Hav : "rust" ∈ validWords lvl ∧ ("rust" ∉ foundWords lvl)
                ∧ length (revealed_of st "rust") < String.length "rust").
  { split_and!.
    - apply list_elem_of_here.
    - exact (not_elem_of_empty (C := gset string) "rust").
    - vm_compute. lia. }
  split; [reflexivity|]. split; [exact Hav|].
  destruct (handleHelp_reveals_one_position zero_rng st lvl eq_refl) as [Hhelp _].
  destruct (Hhelp eq_refl (ex_intro _ "rust" Hav)) as (w & i & _ & Hi & Hn & Heq).
  by exists w, i.
Defined.

(** ** What every state of the shell satisfies *)

Lemma shell_ok_handleWordComplete (e : WordEngine) (word : string) (st : AppState) :
  shell_ok st → shell_ok (handleWordComplete e word st).
Proof.
  intros [Hs Hlvl]. unfold handleWordComplete.
  destruct (level st) as [lvl|] eqn:Hl; [|by split; [|rewrite Hl]].
  destruct Hlvl as [Hfound Hrev].
  assert (Hsame : ∀ msg, shell_ok (showTemporaryMessage msg st)).
  { intros msg. split; [done|]. cbn. rewrite Hl. by split. }
  destruct (String.length word <? 4).
  { destruct (0 <? String.length word); [apply Hsame|]. split; [done|]. by rewrite Hl. }
  destruct (bool_decide (word ∈ foundWords lvl)); [apply Hsame|].
  destruct (bool_decide (word ∈ validWords lvl)) eqn:Hv.
  - apply bool_decide_eq_true in Hv.
    assert (Hnew : shell_ok
              (showTemporaryMessage "Great!"
                 (setScore (score st + Z.of_nat (String.length word) * 10)
                    (setLevel (Some (with_foundWords lvl (foundWords lvl ∪ {[word]}))) st)))).
    { split; [cbn; lia|]. cbn. split; [|done].
      intros w [Hw|Hw%elem_of_singleton]%elem_of_union; [by apply Hfound | by subst]. }
    cbn zeta. destruct (decide (size _ = _)); [|exact Hnew].
    destruct Hnew as [H1 H2]. by split.
  - destruct (isValidWord e word && isPossibleWithLetters word (rootLetters lvl));
      [apply Hsame|].
    destruct (isValidWord e word && negb (isPossibleWithLetters word (rootLetters lvl)));
      apply Hsame.
Qed.

Lemma shell_ok_handleHelp (rng : Rng) (st : AppState) :
  shell_ok st → shell_ok (handleHelp rng st).
Proof.
  intros [Hs Hlvl].
  destruct (level st) as [lvl|] eqn:Hl.
  2: { unfold handleHelp. rewrite Hl. split; [done | by rewrite Hl]. }
  destruct Hlvl as [Hfound Hrev].
  destruct (handleHelp_outcome rng st lvl Hl) as [Hdo Hskip].
  destruct (decide (gameState st = PLAYING)) as [Hg|Hg];
    [|rewrite Hskip by (by left); split; [done | by rewrite Hl]].
  assert (Hdec : (∃ w, w ∈ validWords lvl ∧ (w ∉ foundWords lvl)
                       ∧ length (revealed_of st w) < String.length w)
                 ∨ ¬ (∃ w, w ∈ validWords lvl ∧ (w ∉ foundWords lvl)
                       ∧ length (revealed_of st w) < String.length w)).
  { destruct (decide (Exists (λ w, (w ∉ foundWords lvl)
                            ∧ length (revealed_of st w) < String.length w)
                        (validWords lvl))) as [Hex|Hnone].
    - left. apply Exists_exists in Hex as (w & Hw & Hp). by exists w.
    - right. intros (w & Hw & Hp). apply Hnone, Exists_exists. by exists w. }
  destruct Hdec as [Hex|Hnone].
  - destruct (Hdo Hg Hex) as (w & i & (Hv & Hf & Hlen) & Hi & Hn & ->).
    split; [cbn; lia|]. cbn. rewrite Hl. split; [done|].
    intros w' l. destruct (decide (w = w')) as [<-|Hne].
    + rewrite lookup_insert_eq. intros [= <-]. split; [done|].
      unfold revealed_of in *. destruct (revealedIndices st !! w) as [old|] eqn:Hold.
      * destruct (Hrev w old Hold) as (_ & Hnd & Hall). simpl in *. split.
        -- apply NoDup_app. split_and!; [done | | apply NoDup_singleton].
           intros x Hx ->%list_elem_of_singleton. done.
        -- apply Forall_app. split; [done | by constructor].
      * simpl. split; [apply NoDup_singleton | by constructor].
    + rewrite lookup_insert_ne by done. apply Hrev.
  - rewrite Hskip; [split; [done | by rewrite Hl]|].
    right. intros w Hw. apply Hnone. by exists w.
Qed.

Lemma shell_ok_handleGiveUp (st : AppState) : shell_ok st → shell_ok (handleGiveUp st).
Proof.
  intros [Hs Hlvl]. unfold handleGiveUp.
  destruct (level st) as [lvl|] eqn:Hl; [|by split; [|rewrite Hl]].
  destruct Hlvl as [Hfound Hrev].
  destruct (decide (gameState st ≠ PLAYING)); [split; [done | by rewrite Hl]|].
  split; [done|]. cbn. split; [|done].
  intros w Hw. by apply elem_of_list_to_set in Hw.
Qed.

Lemma shell_ok_loadNewLevel
    (pow_score : Draw → nat → Q) (localeCompare : string → string → Z)
    (e : WordEngine) (rng : Rng) (len : Z) (st : AppState) :
  (0 ≤ score st)%Z → shell_ok (loadNewLevel pow_score localeCompare e rng len st).
Proof.
  intros Hs. split; [done|]. cbn. split.
  - intros w Hw. destruct (not_elem_of_empty (C := gset string) w Hw).
  - intros w l Hw. by rewrite lookup_empty in Hw.
Qed.

Lemma shell_ok_handle
    (pow_score : Draw → nat → Q) (localeCompare : string → string → Z)
    (e : WordEngine) (ev : Event) (st : AppState) :
  shell_ok st → shell_ok (handle pow_score localeCompare e ev st).
Proof.
  intros Hok. destruct ev as [word|rng| |rng| |]; simpl.
  - by apply shell_ok_handleWordComplete.
  - by apply shell_ok_handleHelp.
  - by apply shell_ok_handleGiveUp.
  - unfold nextLevel. apply shell_ok_loadNewLevel.
    destruct Hok as [Hs _]. by destruct (isSkipped st).
  - unfold messageTimeout. destruct (messageTimers st); [done|].
    destruct Hok as [Hs Hl]. by split.
  - unfold completeTimeout. destruct (completeTimers st); [done|].
    destruct Hok as [Hs Hl]. by split.
Qed.

Lemma handleWordComplete_keeps_progress_aux
    (e : WordEngine) (word : string) (st : AppState) (lvl : LevelData) :
  level st = Some lvl →
  ∃ lvl', level (handleWordComplete e word st) = Some lvl'
    ∧ (gameState (handleWordComplete e word st) = gameState st
       ∨ gameState (handleWordComplete e word st) = LEVEL_COMPLETE)
    ∧ levelNumber (handleWordComplete e word st) = levelNumber st.
Proof.
  intros Hl. unfold handleWordComplete. rewrite Hl.
  repeat case_match; cbn; rewrite ?Hl; eexists; split_and!; try reflexivity;
    by (left + right).
Qed.

(** X20. In every state the shell reaches once the first level is loaded:
    a level is there and the state is not [LOADING]; the score is not
    negative and the level number is at least 1; every found word is one of
    [validWords]; the revealed positions of a word are positions of that
    word of the level, each listed once. *)
Theorem reachable_states_are_ok
    (pow_score : Draw → nat → Q) (localeCompare : string → string → Z)
    (e : WordEngine) (st : AppState) :
  reachable pow_score localeCompare e st →
  shell_ok st
  ∧ is_Some (level st)
  ∧ gameState st ≠ LOADING
  ∧ (1 ≤ levelNumber st)%Z.
Proof.
  induction 1 as [rng|ev st Hr (Hok & Hlvl & Hg & Hn)].
  - split_and!; [by apply shell_ok_loadNewLevel | by eexists | done | done].
  - split; [by apply shell_ok_handle|].
    destruct Hlvl as [lvl Hl].
    destruct ev as [word|rng| |rng| |]; simpl.
    + destruct (handleWordComplete_keeps_progress_aux e word st lvl Hl)
        as (lvl' & Hl' & Hg' & Hn').
      rewrite Hl', Hn'. split_and!; [by eexists | | done].
      destruct Hg' as [->| ->]; done.
    + destruct (handleHelp_outcome rng st lvl Hl) as [Hdo Hskip].
      unfold handleHelp. rewrite Hl. repeat case_match; by rewrite ?Hl.
    + unfold handleGiveUp. rewrite Hl. case_decide; cbn; by rewrite ?Hl.
    + split_and!; [by eexists | done | destruct (isSkipped st); cbn; lia].
    + unfold messageTimeout. destruct (messageTimers st); cbn; by rewrite ?Hl.
    + unfold completeTimeout. destruct (completeTimers st); cbn; by rewrite ?Hl.
Qed.

Lemma reachable_states_are_ok_witness :
  let start := loadNewLevel flat_score code_unit_compare fallback_engine zero_rng 6
                 initial_state in
  let st := handle flat_score code_unit_compare fallback_engine (Help cycle_rng)
              (handle flat_score code_unit_compare fallback_engine
                 (WordComplete "rust") start) in
  reachable flat_score code_unit_compare fallback_engine st
  ∧ shell_ok st
  ∧ is_Some (level st)
  ∧ gameState st ≠ LOADING
  ∧ (1 ≤ levelNumber st)%Z.
Proof.
  intros start st.
  assert (Hr : reachable flat_score code_unit_compare fallback_engine st).
  { apply reachable_step, reachable_step, reachable_start. }
  split; [exact Hr|].
  exact (reachable_states_are_ok flat_score code_unit_compare fallback_engine st Hr).
Defined.
